(** * goresolve: a type-directed production-rule resolver

    Shallow embedding of [resolve.go] (package [resolve]) and proofs about
    its registry ([ProductionMap]), its cycle detection ([IsDAG],
    [HasCycle]) and its possibility tree ([PossibilityTree], [Count],
    [PruneFor]).

    Modelling conventions.
    - A [reflect.Type] is an [rtype]: Go compares types by identity, which
      the model renders as equality of the type's name; the flag records
      whether the type's method set satisfies the [error] interface, the
      only question [Implements] is ever asked.
    - The dynamic type of [Resolver.ResolverFunc] is a [gotype]: either a
      function signature or something that is not a function.
    - A [*Resolver] obtained as [&pm[t][i]] is a [ResolverPtr]: the address
      [(t, i)] together with the resolver read through it.  The registry is
      never written while such pointers are in use.
    - A Go [map] is a [gmap]; a slice is a [list].
    - [error] values are the constructors of [error], one per message. *)

From stdpp Require Import gmap strings list fin_maps relations.

Set Default Proof Using "Type".
Set Warnings "-register-all,-clear-no-such-hyp".
Open Scope Z_scope.
Open Scope nat_scope.

(** ** Types and values *)

Record rtype := RType { type_name : string; implements_error : bool }.

#[global] Instance rtype_eq_dec : EqDecision rtype.
Proof. solve_decision. Defined.

#[global] Instance rtype_countable : Countable rtype.
Proof.
  refine (inj_countable' (λ t, (type_name t, implements_error t))
                         (λ p, RType p.1 p.2) _).
  by intros [].
Defined.

(** [var errorInterface = reflect.TypeOf(( *error)(nil)).Elem()] *)
Definition errorInterface : rtype := RType "error" true.

(** [t.Implements(errorInterface)] *)
Definition Implements_error (t : rtype) : bool := implements_error t.

(** A [reflect.Value]: its type, whether [IsNil] holds, and a payload. *)
Record Value := MkValue { vType : rtype; vIsNil : bool; vData : Z }.

#[global] Instance Value_eq_dec : EqDecision Value.
Proof. solve_decision. Defined.

(** [reflect.TypeOf(r.ResolverFunc)]: a function type, with the types of
    its inputs and of its outputs in order, or a type of another kind.
    (Variadic functions are left out of the model.) *)
Inductive gotype :=
| NonFunc (t : rtype)
| FuncOf (ins outs : list rtype).

#[global] Instance gotype_eq_dec : EqDecision gotype.
Proof. solve_decision. Defined.

(** The errors the package builds with [fmt.Errorf], one constructor per
    format string, and [ErrValue] for an error value handed back by a
    resolver function. *)
Inductive error :=
| ErrNotAFunction
| ErrNoInputs
| ErrDuplicateArgumentTypes
| ErrExpectedOutputs (want got : nat)
| ErrSecondOutputNotError
| ErrExpectedInputs (want got : nat)
| ErrArgumentType (want got : rtype)
| ErrFirstOutputType (want got : rtype)
| ErrSecondOutputNotErrorAfterEvaluation
| ErrCouldNotTypeAssert
| ErrCouldNotFind (wanted : rtype)
| ErrFailedToAdd (cause : error)
| ErrResolverConflict
| ErrCircularDependencies
| ErrBranchCouldNotDerive (output : rtype)
| ErrValue (v : Value).

#[global] Instance error_eq_dec : EqDecision error.
Proof. solve_decision. Defined.

(** ** Resolver

    [type Resolver struct{ ResolverFunc interface{} }].  The interface value
    is its dynamic type [ftype], the identity of the function it holds
    [fname], and what [reflect.Value.Call] computes with it [fcall]. *)
Record Resolver := MkResolver {
  fname : string;
  ftype : gotype;
  fcall : list Value → list Value
}.

(** [r.InputTypes()]: [In(0) .. In(NumIn()-1)].  ([NumIn] panics on a value
    that is not a function; the model answers with no inputs there.  Every
    resolver that [Add] stores has passed [Validate] and is a function.) *)
Definition InputTypes (r : Resolver) : list rtype :=
  match ftype r with
  | FuncOf ins _ => ins
  | NonFunc _ => []
  end.

(** The placeholder standing for the panic of [Out(0)] on a type without
    outputs. *)
Definition invalidType : rtype := RType "" false.

(** [r.OutputType()]: [Out(0)]. *)
Definition OutputType (r : Resolver) : rtype :=
  match ftype r with
  | FuncOf _ (o :: _) => o
  | _ => invalidType
  end.

(** The loop of [Validate] over [r.InputTypes()] with its map of the types
    seen so far: [true] when a type occurs twice. *)
Fixpoint duplicateArgument (seen : gset rtype) (ins : list rtype) : bool :=
  match ins with
  | [] => false
  | v :: ins =>
      if decide (v ∈ seen) then true
      else duplicateArgument ({[ v ]} ∪ seen) ins
  end.

(** [func (r Resolver) Validate() error]; [None] is [nil]. *)
Definition Validate (r : Resolver) : option error :=
  match ftype r with
  | NonFunc _ => Some ErrNotAFunction
  | FuncOf ins outs =>
      if decide (length ins = 0) then Some ErrNoInputs
      else if duplicateArgument ∅ (InputTypes r) then
        Some ErrDuplicateArgumentTypes
      else if decide (length outs ≠ 2) then
        Some (ErrExpectedOutputs 2 (length outs))
      else
        match outs !! 1 with
        | Some e =>
            if negb (Implements_error e) then Some ErrSecondOutputNotError
            else None
        | None => Some (ErrExpectedOutputs 2 (length outs))
        end
  end.

(** The result of a call that may panic inside [reflect]. *)
Inductive outcome (A : Type) :=
| Returned (a : A)
| Panicked.
Arguments Returned {A} a.
Arguments Panicked {A}.

(** The loop of [Resolve] comparing [rType.In(i)] with [inputs[i].Type()]
    position by position: the first mismatch, if any. *)
Fixpoint firstTypeMismatch (ins : list rtype) (inputs : list Value)
  : option (rtype * rtype) :=
  match ins, inputs with
  | want :: ins, v :: inputs =>
      if decide (want ≠ vType v) then Some (want, vType v)
      else firstTypeMismatch ins inputs
  | _, _ => None
  end.

(** [func (r Resolver) Resolve(inputs ...reflect.Value) ( *reflect.Value, error)] *)
Definition Resolve (r : Resolver) (inputs : list Value)
  : outcome (option Value * option error) :=
  match ftype r with
  | NonFunc _ => Panicked
  | FuncOf ins outs =>
      if decide (length ins ≠ length inputs) then
        Returned (None, Some (ErrExpectedInputs (length ins) (length inputs)))
      else
        match firstTypeMismatch ins inputs with
        | Some (want, got) => Returned (None, Some (ErrArgumentType want got))
        | None =>
            let outputValues := fcall r inputs in
            if decide (length outputValues ≠ 2) then
              Returned (None, Some (ErrExpectedOutputs 2 (length outputValues)))
            else
              match outputValues with
              | [ov; ev] =>
                  if decide (vType ov ≠ OutputType r) then
                    Returned (None, Some (ErrFirstOutputType (OutputType r) (vType ov)))
                  else if negb (Implements_error (vType ev)) then
                    Returned (None, Some ErrSecondOutputNotErrorAfterEvaluation)
                  else if negb (vIsNil ev) then
                    if Implements_error (vType ev) then
                      Returned (Some ov, Some (ErrValue ev))
                    else Returned (None, Some ErrCouldNotTypeAssert)
                  else Returned (Some ov, None)
              | _ => Returned (None, Some (ErrExpectedOutputs 2 (length outputValues)))
              end
        end
  end.

(** [func (r Resolver) FitInputs(have []reflect.Value) ([]reflect.Value, error)] *)
Fixpoint fitLoop (wanted : list rtype) (have : list Value) (inputs : list Value)
  : list Value * option error :=
  match wanted with
  | [] => (inputs, None)
  | wantedType :: wanted =>
      match list_find (λ value, vType value = wantedType) have with
      | Some (_, value) => fitLoop wanted have (inputs ++ [value])
      | None => ([], Some (ErrCouldNotFind wantedType))
      end
  end.

Definition FitInputs (r : Resolver) (have : list Value)
  : list Value * option error :=
  fitLoop (InputTypes r) have [].

(** [func (r Resolver) MissingInputs(have []reflect.Type) []reflect.Type] *)
Definition MissingInputs (r : Resolver) (have : list rtype) : list rtype :=
  filter (λ wantedType, wantedType ∉ have) (InputTypes r).

(** ** ProductionMap

    [type ProductionMap map[reflect.Type][]Resolver] *)
Abbreviation ProductionMap := (gmap rtype (list Resolver)).

(** A [*Resolver] pointing into the registry: [&pm[t][i]]. *)
Record ResolverPtr := MkPtr { addr : rtype * nat; deref : Resolver }.

(** The pointers [&pm[t][0], &pm[t][1], ...] of one bucket; [pm[t]] of an
    absent key is the nil slice. *)
Definition bucketPtrs (pm : ProductionMap) (t : rtype) : list ResolverPtr :=
  imap (λ i r, MkPtr (t, i) r) (pm !!! t).

(** [func (pm ProductionMap) List() []*Resolver].  Go leaves the order in
    which [range] visits the keys of a map open; the model visits them in
    the order of [map_to_list], and the theorems about the tree are
    stated for every order. *)
Definition List (pm : ProductionMap) : list ResolverPtr :=
  map_to_list pm ≫= λ '(t, rs), imap (λ j r, MkPtr (t, j) r) rs.

(** The pointers [HasCycle] recurses into, in the order of its two loops. *)
Definition successors (pm : ProductionMap) (r : ResolverPtr) : list ResolverPtr :=
  InputTypes (deref r) ≫= bucketPtrs pm.

(** A loop that returns [true] at the first element for which [f] does;
    [None] when an evaluation of [f] has not finished. *)
Fixpoint anyOf {A} (f : A → option bool) (l : list A) : option bool :=
  match l with
  | [] => Some false
  | x :: l =>
      match f x with
      | Some true => Some true
      | Some false => anyOf f l
      | None => None
      end
  end.

(** [func (pm ProductionMap) HasCycle(r *Resolver, visited map[*Resolver]struct{}) bool].
    The recursion is not structural: [fuel] bounds its depth and [None] says
    that the bound was hit.  Each recursive call receives its own copy
    [visitedClone] of the set, made after [r] was entered in it. *)
Fixpoint HasCycle (fuel : nat) (pm : ProductionMap) (r : ResolverPtr)
    (visited : gset (rtype * nat)) : option bool :=
  match fuel with
  | 0 => None
  | S fuel =>
      if decide (addr r ∈ visited) then Some true
      else
        let visited := {[ addr r ]} ∪ visited in
        anyOf (λ r', let visitedClone := visited in HasCycle fuel pm r' visitedClone)
              (successors pm r)
  end.

(** [func (pm ProductionMap) IsDAG() bool], with the fuel handed to every
    walk. *)
Definition IsDAG_fuel (fuel : nat) (pm : ProductionMap) : option bool :=
  negb <$> anyOf (λ r, HasCycle fuel pm r ∅) (List pm).

(** One unit of fuel per registered resolver and one more is enough for
    every walk ([IsDAG_fuel_total] below), so the default is never used. *)
Definition IsDAG (pm : ProductionMap) : bool :=
  default false (IsDAG_fuel (S (length (List pm))) pm).

(** [func (pm ProductionMap) Add(r Resolver) error]: the registry after the
    call and the error returned. *)
Definition Add (pm : ProductionMap) (r : Resolver) : ProductionMap * option error :=
  match Validate r with
  | Some err => (pm, Some (ErrFailedToAdd err))
  | None =>
      let outputType := OutputType r in
      if existsb (λ resolver, bool_decide (ftype r = ftype resolver)) (pm !!! outputType)
      then (pm, Some ErrResolverConflict)
      else
        let pm1 := <[outputType := (pm !!! outputType) ++ [r]]> pm in
        if negb (IsDAG pm1) then
          let pm2 := <[outputType := take (length (pm1 !!! outputType) - 1) (pm1 !!! outputType)]> pm1 in
          let pm3 := if decide (length (pm2 !!! outputType) = 0)
                     then delete outputType pm2 else pm2 in
          (pm3, Some ErrCircularDependencies)
        else (pm1, None)
  end.

(** The registries a program can hold: [ProductionMap{}] and whatever
    [Add] leaves behind, whether it succeeded or not. *)
Inductive Reachable : ProductionMap → Prop :=
| Reachable_empty : Reachable ∅
| Reachable_Add pm r : Reachable pm → Reachable (Add pm r).1.

(** Registering a list of resolvers in order, ignoring the errors. *)
Definition AddAll (pm : ProductionMap) (rs : list Resolver) : ProductionMap :=
  foldl (λ pm r, (Add pm r).1) pm rs.

(** ** The fixtures of the test suite *)
Module Fixtures.
Definition T (n : string) : rtype := RType n false.
Definition tInt := T "int".
Definition tString := T "string".
Definition tFloat64 := T "float64".
Definition tByte := T "uint8".
Definition tUserPtr := T "*resolve.User".
Definition Boulder := T "resolve.Boulder".
Definition Tree := T "resolve.Tree".
Definition Stick := T "resolve.Stick".
Definition Stone := T "resolve.Stone".
Definition Axe := T "resolve.Axe".
Definition Hammer := T "resolve.Hammer".

(** A function value [name] of type [func(ins...) (out, error)] whose
    call returns a value of type [out] carrying [f] of the payloads and a
    nil error. *)
Definition fn (name : string) (ins : list rtype) (out : rtype)
    (f : list Z → Z) : Resolver :=
  MkResolver name (FuncOf ins [out; errorInterface])
    (λ vs, [MkValue out false (f (vData <$> vs)); MkValue errorInterface true 0]).

Definition chiselStone := fn "chiselStone" [Boulder] Stone (λ a, (a !!! 0%nat `div` 10)%Z).
Definition pickupStick := fn "pickupStick" [Tree] Stick (λ a, (a !!! 0%nat `div` 10)%Z).
Definition assembleAxe := fn "assembleAxe" [Stick; Stone] Axe (λ a, (a !!! 0%nat + a !!! 1%nat)%Z).
Definition assembleHammer := fn "assembleHammer" [Stone; Stick] Hammer (λ a, (a !!! 0%nat + a !!! 1%nat)%Z).
Definition selfUser := fn "f" [tUserPtr] tUserPtr (λ _, 0%Z).
Definition g := fn "g" [tInt] tString (λ _, 0%Z).
Definition h := fn "h" [tString] tInt (λ _, 0%Z).
Definition h' := fn "h" [tString] tFloat64 (λ _, 0%Z).
Definition i := fn "i" [tFloat64] tInt (λ _, 0%Z).
Definition i' := fn "i" [tFloat64] tByte (λ _, 0%Z).

(** [StringToUser] of the tests, and its three argument types. *)
Definition tID := T "resolve.ID".
Definition tEmail := T "resolve.Email".
Definition tPasswordHash := T "resolve.PasswordHash".
Definition stringToUser :=
  fn "StringToUser" [tID; tEmail; tPasswordHash] tUserPtr (λ a, a !!! 0%nat).
Definition TestUserID := MkValue tID false 1337.
Definition TestUserEmail := MkValue tEmail false 1.
Definition TestUserPasswordHash := MkValue tPasswordHash false 2.

(** A function that hands back a non-nil error. *)
Definition refuse : Resolver :=
  MkResolver "refuse" (FuncOf [tString] [tUserPtr; errorInterface])
    (λ _, [MkValue tUserPtr true 0; MkValue errorInterface false 7]).

(** Two different functions of the one type [func(string) ( *User, error)]. *)
Definition newUser := fn "newUser" [tString] tUserPtr (λ _, 1%Z).
Definition findUser := fn "findUser" [tString] tUserPtr (λ _, 2%Z).

(** Two functions of different types with the same output type. *)
Definition userOfInt := fn "userOfInt" [tInt] tUserPtr (λ _, 3%Z).

(** A diamond: [combine] needs what [widen] and [narrow] produce, and
    both of these need what [parse] produces. *)
Definition parse := fn "parse" [tString] tInt (λ _, 0%Z).
Definition widen := fn "widen" [tInt] tFloat64 (λ _, 0%Z).
Definition narrow := fn "narrow" [tInt] tByte (λ _, 0%Z).
Definition combine := fn "combine" [tFloat64; tByte] tUserPtr (λ _, 0%Z).
Definition diamond : gmap rtype (list Resolver) :=
  AddAll ∅ [parse; widen; narrow; combine].

(** The registry of [TestPossibilityTreeBuildAxe] after its first [n]
    registrations. *)
Definition axeResolvers : list Resolver :=
  [chiselStone; pickupStick; assembleAxe; assembleHammer].
Definition axeRegistry (n : nat) : gmap rtype (list Resolver) :=
  AddAll ∅ (take n axeResolvers).
End Fixtures.

(** ** PossibilityNode

    [type PossibilityNode struct { *Resolver; Inputs []reflect.Type;
    NextSteps []*PossibilityNode }].  The nodes of a tree are allocated by
    the builder, one per step, and no node is shared between two parents. *)
Inductive PossibilityNode :=
| Node (resolver : option ResolverPtr) (Inputs : list rtype)
       (NextSteps : list PossibilityNode).

Definition nodeResolver (pn : PossibilityNode) : option ResolverPtr :=
  match pn with Node r _ _ => r end.
Definition Inputs (pn : PossibilityNode) : list rtype :=
  match pn with Node _ i _ => i end.
Definition NextSteps (pn : PossibilityNode) : list PossibilityNode :=
  match pn with Node _ _ n => n end.

(** [func (pn PossibilityNode) Count() int].  (A tree with more than
    [2^63] nodes does not fit in memory; the count is a [nat].) *)
Fixpoint Count (pn : PossibilityNode) : nat :=
  match pn with
  | Node _ _ next => foldl (λ count node, count + Count node) 1 next
  end.

(** [pn.Resolver != nil && pn.Resolver.OutputType() == output] *)
Definition produces (pn : PossibilityNode) (output : rtype) : bool :=
  match nodeResolver pn with
  | Some r => bool_decide (OutputType (deref r) = output)
  | None => false
  end.

(** [func (pn *PossibilityNode) PruneFor(output reflect.Type) error]: the
    node after the call and the error returned.  The first loop prunes the
    children in place and notes in [keepIdx] which calls returned [nil];
    the second collects those children. *)
Fixpoint PruneFor (pn : PossibilityNode) (output : rtype)
  : PossibilityNode * option error :=
  match pn with
  | Node res inputs next =>
      if produces (Node res inputs next) output then (Node res inputs [], None)
      else
        let pruned := map (λ next, PruneFor next output) next in
        let kept := filter (λ p, p.2 = None) pruned in
        if decide (length kept = 0) then
          (Node res inputs [], Some (ErrBranchCouldNotDerive output))
        else (Node res inputs (kept.*1), None)
  end.

(** [root.NextSteps = append(root.NextSteps, pn)] *)
Definition appendStep (root pn : PossibilityNode) : PossibilityNode :=
  match root with
  | Node r i next => Node r i (next ++ [pn])
  end.

(** [func (pm ProductionMap) BuildPossibilityTree(root *PossibilityNode, inputs ...reflect.Type)]:
    the root after the call.  The recursion is not structural: [fuel]
    bounds its depth and [None] says that the bound was hit. *)
Fixpoint BuildPossibilityTree (fuel : nat) (pm : ProductionMap)
    (root : PossibilityNode) (inputs : list rtype) : option PossibilityNode :=
  match fuel with
  | 0 => None
  | S fuel =>
      foldl (λ acc r,
               root ← acc;
               if decide (OutputType (deref r) ∈ inputs) then Some root
               else if decide (0 < length (MissingInputs (deref r) inputs)) then Some root
               else
                 let inputsPersist := inputs in
                 let pn := Node (Some r) inputsPersist [] in
                 let inputsNext := inputs ++ [OutputType (deref r)] in
                 pn ← BuildPossibilityTree fuel pm pn inputsNext;
                 Some (appendStep root pn))
            (Some root) (List pm)
  end.

(** [func (pm ProductionMap) PossibilityTree(inputs ...reflect.Type) *PossibilityNode].
    One unit of fuel per registered resolver and one more is enough
    ([PossibilityTree_total] below). *)
Definition PossibilityTree (pm : ProductionMap) (inputs : list rtype)
  : option PossibilityNode :=
  BuildPossibilityTree (S (length (List pm))) pm (Node None [] []) inputs.

(** ** Vocabulary for the statements about trees *)

(** The nodes of a tree: the root first, then the nodes of each subtree. *)
Fixpoint nodes (pn : PossibilityNode) : list PossibilityNode :=
  match pn with
  | Node r i next => Node r i next :: (next ≫= nodes)
  end.

(** The longest chain of applications below a node. *)
Fixpoint depth (pn : PossibilityNode) : nat :=
  match pn with
  | Node _ _ next => foldr (λ node d, S (depth node) `max` d) 0 next
  end.

(** [descends pn path]: [path] starts at [pn] and each of its nodes is
    followed by one of its own [NextSteps]. *)
Inductive descends : PossibilityNode → list PossibilityNode → Prop :=
| descends_here pn : descends pn [pn]
| descends_step pn next path :
    next ∈ NextSteps pn → descends next path → descends pn (pn :: path).

(** ** Vocabulary for the statements about the builder *)

(** The two tests of [BuildPossibilityTree] that a resolver passes to
    become a next step: its output type is not among [inputs], and none of
    its inputs is missing from [inputs]. *)
Definition eligible (inputs : list rtype) (r : Resolver) : Prop :=
  (OutputType r ∉ inputs) ∧ MissingInputs r inputs = [].

#[global] Instance eligible_dec inputs r : Decision (eligible inputs r).
Proof. unfold eligible. apply _. Defined.

(** The builder for every order in which [range] may visit the registry.
    [Builds pm inputs steps]: a call [pm.BuildPossibilityTree(root,
    inputs...)] on a root without next steps can leave [steps] in
    [root.NextSteps].  [BuildsLoop] is its loop over what [pm.List()]
    returned, [order], any arrangement of the registered resolvers; every
    recursive call draws its own. *)
Inductive Builds (pm : ProductionMap) : list rtype → list PossibilityNode → Prop :=
| Builds_range inputs order steps :
    order ≡ₚ List pm →
    BuildsLoop pm inputs order steps →
    Builds pm inputs steps
with BuildsLoop (pm : ProductionMap)
  : list rtype → list ResolverPtr → list PossibilityNode → Prop :=
| Loop_done inputs :
    BuildsLoop pm inputs [] []
| Loop_have_output inputs r order steps :
    OutputType (deref r) ∈ inputs →
    BuildsLoop pm inputs order steps →
    BuildsLoop pm inputs (r :: order) steps
| Loop_missing_input inputs r order steps :
    OutputType (deref r) ∉ inputs →
    0 < length (MissingInputs (deref r) inputs) →
    BuildsLoop pm inputs order steps →
    BuildsLoop pm inputs (r :: order) steps
| Loop_next_step inputs r order sub steps :
    OutputType (deref r) ∉ inputs →
    MissingInputs (deref r) inputs = [] →
    Builds pm (inputs ++ [OutputType (deref r)]) sub →
    BuildsLoop pm inputs order steps →
    BuildsLoop pm inputs (r :: order) (Node (Some r) inputs sub :: steps).

(** What [pm.PossibilityTree(inputs...)] can return. *)
Definition Built (pm : ProductionMap) (inputs : list rtype) (root : PossibilityNode) : Prop :=
  ∃ steps, root = Node None [] steps ∧ Builds pm inputs steps.

(** The nodes of a tree, each with the types available at it: [avail] at
    the root, and at a next step what is available at its parent followed
    by the output type of the resolver it applies. *)
Fixpoint states (avail : list rtype) (pn : PossibilityNode)
  : list (list rtype * PossibilityNode) :=
  match pn with
  | Node r i next =>
      (avail, Node r i next) ::
      (next ≫= λ c, states (avail ++ from_option (λ p, [OutputType (deref p)]) [] (nodeResolver c)) c)
  end.

(** The output types of the registered resolvers. *)
Definition outputTypes (pm : ProductionMap) : gset rtype :=
  list_to_set ((λ p, OutputType (deref p)) <$> List pm).

(** The input types that no registered resolver produces. *)
Definition sourceTypes (pm : ProductionMap) : list rtype :=
  filter (λ t, t ∉ outputTypes pm) (List pm ≫= λ p, InputTypes (deref p)).

(** ** Vocabulary for the statements about cycles *)

(** The dependency graph over types: an edge from each input type of a
    registered resolver to its output type. *)
Definition edge (pm : ProductionMap) (a b : rtype) : Prop :=
  ∃ p, p ∈ List pm ∧ a ∈ InputTypes (deref p) ∧ OutputType (deref p) = b.

Definition Acyclic (pm : ProductionMap) : Prop :=
  ∀ t, ¬ tc (edge pm) t t.

(** The graph [HasCycle] walks: from a registered resolver to each
    resolver registered under one of its input types. *)
Definition walks (pm : ProductionMap) (p q : ResolverPtr) : Prop :=
  q ∈ successors pm p.

(** [Revisits pm p visited]: some walk from [p] comes to a resolver that is
    in [visited] or that it has passed before. *)
Inductive Revisits (pm : ProductionMap) : ResolverPtr → gset (rtype * nat) → Prop :=
| Revisits_here p visited :
    addr p ∈ visited → Revisits pm p visited
| Revisits_later p q visited :
    addr p ∉ visited → walks pm p q → Revisits pm q ({[ addr p ]} ∪ visited) →
    Revisits pm p visited.

(** What every registry built with [Add] satisfies: no bucket is empty,
    and each resolver is valid and filed under its own output type. *)
Definition WellFormed (pm : ProductionMap) : Prop :=
  ∀ t rs, pm !! t = Some rs →
    rs ≠ [] ∧ ∀ r, r ∈ rs → Validate r = None ∧ OutputType r = t.

(** The registered output types that are not yet available: what bounds
    the recursion of the builder. *)
Definition unproduced (pm : ProductionMap) (inputs : list rtype) : nat :=
  size (outputTypes pm ∖ list_to_set inputs).

(** A next step of the builder for [inputs]: it applies [p], records
    [inputs], and its own next steps were built for [inputs] and the
    output type of [p]. *)
Definition nextStep (pm : ProductionMap) (inputs : list rtype)
    (p : ResolverPtr) (c : PossibilityNode) : Prop :=
  ∃ sub, c = Node (Some p) inputs sub ∧ Builds pm (inputs ++ [OutputType (deref p)]) sub.

(** The addresses of the registered resolvers: what bounds the recursion
    of [HasCycle]. *)
Definition addresses (pm : ProductionMap) : gset (rtype * nat) :=
  list_to_set (addr <$> List pm).

(** The number of nodes below a node at which [inputs] are available,
    counted from the registered resolvers [rs] alone: one for each
    eligible resolver and what lies below it.  [fuel] bounds the depth
    counted. *)
Fixpoint possibilities (fuel : nat) (rs : list Resolver) (inputs : list rtype) : nat :=
  match fuel with
  | 0 => 0
  | S fuel =>
      sum_list_with (λ r, S (possibilities fuel rs (inputs ++ [OutputType r])))
                    (filter (eligible inputs) rs)
  end.

(** Every [Add] of the resolvers [rs], in this order, succeeds. *)
Fixpoint AllAdded (pm : ProductionMap) (rs : list Resolver) : Prop :=
  match rs with
  | [] => True
  | r :: rs => (Add pm r).2 = None ∧ AllAdded (Add pm r).1 rs
  end.

(** [n] is the count of every tree that [pm.PossibilityTree(inputs...)]
    can return, and of the one the model computes. *)
Definition possibilityCount (pm : ProductionMap) (inputs : list rtype) (n : nat) : Prop :=
  Count <$> PossibilityTree pm inputs = Some n
  ∧ ∀ root, Built pm inputs root → Count root = n.

(** ** The rest of the package *)

(** [func NewResolver(f interface{}) Resolver].  [log.Fatal] prints the
    error and ends the program: [inl] carries what it was given. *)
Definition NewResolver (f : Resolver) : error + Resolver :=
  let r := f in
  match Validate r with
  | Some err => inl err
  | None => inr r
  end.

(** What [Print] hands to [log.Printf] for one node: the prefix it built,
    the depth, the output type and the inputs. *)
Record logLine := MkLogLine {
  linePrefix : string;
  lineDepth : Z;
  lineType : rtype;
  lineInputs : list rtype
}.

(** The loop [for i := 0; i < depth; i++ { p += "--" }]. *)
Definition printPrefix (depth : Z) : string :=
  foldl (λ p _, p +:+ "--") "" (seqZ 0 depth).

(** An [int] of 64 bits after an addition: the sum wraps around. *)
Definition wrapInt (z : Z) : Z := ((z + 2 ^ 63) `mod` 2 ^ 64 - 2 ^ 63)%Z.

(** [func (pn PossibilityNode) Print(depth int) int]: what was logged, in
    order, and the count returned.  (The count is a [nat], as in [Count].) *)
Fixpoint Print (pn : PossibilityNode) (depth : Z) : list logLine * nat :=
  match pn with
  | Node res inputs next =>
      let here :=
        match res with
        | Some r => [MkLogLine (printPrefix depth) depth (OutputType (deref r)) inputs]
        | None => []
        end in
      foldl (λ acc node,
               let sub := Print node (wrapInt (depth + 1)) in
               (acc.1 ++ sub.1, acc.2 + sub.2))
            (here, 1) next
  end.

(** [Derivable rs inputs t]: [t] is one of [inputs], or the output type of
    one of the resolvers [rs] all of whose input types are derivable. *)
Inductive Derivable (rs : list Resolver) (inputs : list rtype) : rtype → Prop :=
| Derivable_input t : t ∈ inputs → Derivable rs inputs t
| Derivable_output r :
    r ∈ rs → (∀ a, a ∈ InputTypes r → Derivable rs inputs a) →
    Derivable rs inputs (OutputType r).

(** The dependency graph of a list of resolvers. *)
Definition edgeOf (rs : list Resolver) (a b : rtype) : Prop :=
  ∃ r, r ∈ rs ∧ a ∈ InputTypes r ∧ OutputType r = b.

(** The nodes of a tree, each with the number of steps from the root. *)
Fixpoint levels (level : Z) (pn : PossibilityNode) : list (Z * PossibilityNode) :=
  match pn with
  | Node r i next => (level, Node r i next) :: (next ≫= levels (level + 1)%Z)
  end.

(** A list of resolvers whose dependency graph has no cycle. *)
Definition AcyclicOf (rs : list Resolver) : Prop :=
  ∀ t, ¬ tc (edgeOf rs) t t.

(** The line [Print] logs for a node [level] steps deep: none for a node
    without a resolver. *)
Definition lineOf (ln : Z * PossibilityNode) : option logLine :=
  r ← nodeResolver ln.2;
  Some (MkLogLine (printPrefix ln.1) ln.1 (OutputType (deref r)) (Inputs ln.2)).

(** * Proofs *)

Lemma PossibilityNode_ind' (P : PossibilityNode → Prop) :
  (∀ r i next, Forall P next → P (Node r i next)) → ∀ pn, P pn.
Proof.
  intros step. fix IH 1. intros [r i next]. apply step.
  induction next as [|c next IHnext]; constructor; [apply IH | apply IHnext].
Qed.

(** ** Resolve *)

Lemma firstTypeMismatch_None ins inputs :
  length ins = length inputs →
  firstTypeMismatch ins inputs = None ↔ vType <$> inputs = ins.
Proof.
  revert inputs. induction ins as [|want ins IH]; intros [|v inputs] Hlen;
    simplify_eq/=; try done.
  case_decide as Hne.
  - split; [done | intros [=]; congruence].
  - rewrite IH by done. split; [congruence | by intros [=]].
Qed.

Lemma firstTypeMismatch_Some ins inputs want got :
  firstTypeMismatch ins inputs = Some (want, got) →
  ∃ j, ins !! j = Some want ∧ vType <$> inputs !! j = Some got ∧ want ≠ got ∧
       ∀ k, k < j → vType <$> inputs !! k = ins !! k.
Proof.
  revert inputs. induction ins as [|w ins IH]; intros [|v inputs] Hm;
    simplify_eq/=.
  case_decide as Hne.
  - simplify_eq. exists 0. repeat split; [done|]. intros k Hk. lia.
  - destruct (IH _ Hm) as (j & ? & ? & ? & Hbefore).
    exists (S j). repeat split; try done.
    intros [|k] Hk; simpl; [congruence | apply Hbefore; lia].
Qed.

(** C8.  [Resolve] reports, in this order: a supplied value count that
    differs from the number of inputs of the function; the first position
    at which a supplied value's type differs from the input type at that
    same position (the values are never searched or reordered); a first
    output whose type is not [OutputType]; and, when all of that is in
    order, it hands back the produced value together with the function's
    own error value, untouched, when that one is not nil (and no error when
    it is nil). *)
Theorem Resolve_reports (r : Resolver) (ins outs : list rtype) (inputs : list Value) :
  ftype r = FuncOf ins outs →
  (length inputs ≠ length ins →
     Resolve r inputs =
       Returned (None, Some (ErrExpectedInputs (length ins) (length inputs))))
  ∧ (length inputs = length ins →
     ∀ i want v, ins !! i = Some want → inputs !! i = Some v → vType v ≠ want →
       ∃ j want' got, j ≤ i ∧ ins !! j = Some want' ∧
         vType <$> inputs !! j = Some got ∧ want' ≠ got ∧
         Resolve r inputs = Returned (None, Some (ErrArgumentType want' got)))
  ∧ (vType <$> inputs = ins →
     ∀ ov ev, fcall r inputs = [ov; ev] →
       (vType ov ≠ OutputType r →
          Resolve r inputs =
            Returned (None, Some (ErrFirstOutputType (OutputType r) (vType ov))))
       ∧ (vType ov = OutputType r → Implements_error (vType ev) = true →
          Resolve r inputs =
            Returned (Some ov, if vIsNil ev then None else Some (ErrValue ev)))).
Proof.
  intros Hty. unfold Resolve. rewrite Hty. split_and!.
  - intros Hlen. by rewrite decide_True by congruence.
  - intros Hlen i want v Hi Hv Hne.
    rewrite decide_False by (intros ?; congruence).
    destruct (firstTypeMismatch ins inputs) as [[want' got]|] eqn:Hm.
    + destruct (firstTypeMismatch_Some _ _ _ _ Hm) as (j & Hj & Hg & Hd & Hbefore).
      exists j, want', got. split_and!; try done.
      destruct (decide (j ≤ i)) as [|Hlt]; [done|].
      specialize (Hbefore i ltac:(lia)). rewrite Hv, Hi in Hbefore. naive_solver.
    + apply firstTypeMismatch_None in Hm; [|done].
      subst ins. rewrite list_lookup_fmap, Hv in Hi. naive_solver.
  - intros Hins ov ev Hcall.
    assert (length ins = length inputs) as Hlen by (subst ins; by rewrite length_fmap).
    rewrite decide_False by (intros ?; congruence).
    rewrite (proj2 (firstTypeMismatch_None ins inputs Hlen) Hins).
    simpl. rewrite Hcall. simpl. split.
    + intros Hne. by rewrite decide_True.
    + intros Heq Himpl. rewrite decide_False by (intros ?; congruence).
      rewrite Himpl. simpl. by destruct (vIsNil ev).
Qed.

(** ** PruneFor *)

Lemma PruneFor_unfold r i next output :
  PruneFor (Node r i next) output =
    if produces (Node r i next) output then (Node r i [], None)
    else
      let kept := filter (λ p, p.2 = None) ((λ c, PruneFor c output) <$> next) in
      if decide (length kept = 0) then
        (Node r i [], Some (ErrBranchCouldNotDerive output))
      else (Node r i (kept.*1), None).
Proof. done. Qed.

Lemma nodes_self pn : pn ∈ nodes pn.
Proof. destruct pn. simpl. left. Qed.

Lemma nodes_child pn c n : c ∈ NextSteps pn → n ∈ nodes c → n ∈ nodes pn.
Proof.
  destruct pn as [r i next]. simpl. intros Hc Hn. right.
  apply list_elem_of_bind. eauto.
Qed.

Lemma nodes_inv pn n :
  n ∈ nodes pn → n = pn ∨ ∃ c, c ∈ NextSteps pn ∧ n ∈ nodes c.
Proof.
  destruct pn as [r i next]. simpl. intros [->|Hn]%elem_of_cons; [by left|].
  right. apply list_elem_of_bind in Hn as (c & ? & ?). eauto.
Qed.

(** The only error of [PruneFor]. *)
Lemma PruneFor_error pn output e :
  (PruneFor pn output).2 = Some e → e = ErrBranchCouldNotDerive output.
Proof.
  destruct pn as [r i next]. rewrite PruneFor_unfold.
  destruct (produces _ _); [done|]. simpl. case_decide; simpl; congruence.
Qed.

(** [PruneFor] returns [nil] exactly when some node of the tree applies a
    resolver whose output is the wanted type. *)
Lemma PruneFor_nil_iff pn output :
  (PruneFor pn output).2 = None ↔ ∃ n, n ∈ nodes pn ∧ produces n output = true.
Proof.
  induction pn as [r i next IH] using PossibilityNode_ind'.
  rewrite PruneFor_unfold.
  destruct (produces (Node r i next) output) eqn:Hp.
  { split; [|done]. intros _. exists (Node r i next). split; [apply nodes_self | done]. }
  cbv zeta. case_decide as Hlen; cbn [snd].
  - split; [done|]. intros (n & [->|(c & Hc & Hn)]%nodes_inv & Hn'); [congruence|].
    simpl in Hc. rewrite Forall_forall in IH.
    assert ((PruneFor c output).2 = None) as Hok by (apply IH; eauto).
    apply length_zero_iff_nil in Hlen.
    assert (PruneFor c output ∈ filter (λ p, p.2 = None) ((λ c, PruneFor c output) <$> next)) as Hin.
    { apply list_elem_of_filter. split; [done|]. apply list_elem_of_fmap. eauto. }
    rewrite Hlen in Hin. by apply elem_of_nil in Hin.
  - split; [|done]. intros _.
    destruct (filter (λ p, p.2 = None) ((λ c, PruneFor c output) <$> next))
      as [|p kept] eqn:Hk; [done|].
    assert (p ∈ filter (λ p, p.2 = None) ((λ c, PruneFor c output) <$> next)) as Hin
      by (rewrite Hk; left).
    apply list_elem_of_filter in Hin as [Hok Hin].
    apply list_elem_of_fmap in Hin as (c & -> & Hc).
    rewrite Forall_forall in IH. apply IH in Hok as (n & ? & ?); [|done].
    exists n. split; [|done]. eapply nodes_child; eauto.
Qed.

(** After a successful [PruneFor], every node has a leaf below it, all
    leaves apply a resolver for the wanted type, and every node is what
    [PruneFor] made of a node of the tree it was given. *)
Lemma PruneFor_survivors pn output :
  (PruneFor pn output).2 = None →
  ∀ n, n ∈ nodes (PruneFor pn output).1 →
    (∃ n0, n0 ∈ nodes pn ∧ n = (PruneFor n0 output).1 ∧ (PruneFor n0 output).2 = None)
    ∧ (NextSteps n = [] → produces n output = true)
    ∧ ∃ path last, descends n path ∧ list.last path = Some last ∧
        NextSteps last = [] ∧ produces last output = true.
Proof.
  induction pn as [r i next IH] using PossibilityNode_ind'.
  intros Hok n. revert Hok. rewrite PruneFor_unfold.
  destruct (produces (Node r i next) output) eqn:Hp.
  { simpl. intros _ Hn. apply list_elem_of_singleton in Hn as ->. split_and!.
    - exists (Node r i next). rewrite PruneFor_unfold, Hp. split; [apply nodes_self | done].
    - done.
    - exists [Node r i []], (Node r i []). split_and!; [constructor | done..]. }
  simpl. case_decide as Hlen; simpl; [done|]. intros _ Hn.
  set (kept := filter (λ p, p.2 = None) ((λ c, PruneFor c output) <$> next)) in *.
  apply elem_of_cons in Hn as [->|Hn].
  - split_and!.
    + exists (Node r i next). rewrite PruneFor_unfold, Hp. simpl.
      fold kept. rewrite decide_False by done. split; [apply nodes_self | done].
    + simpl. intros Hnil. apply fmap_nil_inv in Hnil. by rewrite Hnil in Hlen.
    + destruct kept as [|p kept'] eqn:Hk; [done|].
      assert (p ∈ kept) as Hin by (rewrite Hk; left).
      apply list_elem_of_filter in Hin as [Hpok Hin].
      apply list_elem_of_fmap in Hin as (c & -> & Hc).
      rewrite Forall_forall in IH.
      destruct (IH c Hc Hpok (PruneFor c output).1 (nodes_self _))
        as (_ & _ & path & last & Hpath & Hlast & Hleaf & Hprod).
      eexists (_ :: path), last. split_and!; try done.
      * econstructor; [|done]. simpl. left.
      * rewrite last_cons, Hlast. done.
  - apply list_elem_of_bind in Hn as (c' & Hn & Hc').
    apply list_elem_of_fmap in Hc' as (p & -> & Hin).
    apply list_elem_of_filter in Hin as [Hpok Hin].
    apply list_elem_of_fmap in Hin as (c & -> & Hc).
    rewrite Forall_forall in IH.
    destruct (IH c Hc Hpok n Hn) as ((n0 & Hn0 & Heq & Hn0ok) & Hleaf & Hpath).
    split_and!; [|done..].
    exists n0. split_and!; [|done..]. by apply (nodes_child (Node r i next) c).
Qed.

Lemma descends_app pn path mid path' :
  descends pn path → list.last path = Some mid → descends mid (mid :: path') →
  descends pn (path ++ path').
Proof.
  induction 1 as [pn|pn next path Hnext Hpath IH]; intros Hlast Hd.
  - simpl in Hlast. by simplify_eq.
  - simpl. econstructor; [done|]. apply IH; [|done].
    destruct path; [inversion Hpath|]. by rewrite last_cons_cons in Hlast.
Qed.

Lemma descends_to pn n :
  n ∈ nodes pn → ∃ path, descends pn path ∧ list.last path = Some n.
Proof.
  induction pn as [r i next IH] using PossibilityNode_ind'.
  intros [->|(c & Hc & Hn)]%nodes_inv.
  - exists [Node r i next]. split; [constructor | done].
  - rewrite Forall_forall in IH. destruct (IH c Hc Hn) as (path & Hpath & Hlast).
    exists (Node r i next :: path). split; [by econstructor|].
    rewrite last_cons, Hlast. done.
Qed.

Lemma descends_head pn path : descends pn path → ∃ rest, path = pn :: rest.
Proof. destruct 1; eauto. Qed.

Lemma PruneFor_failed_empty pn output :
  (PruneFor pn output).2 ≠ None → NextSteps (PruneFor pn output).1 = [].
Proof.
  destruct pn as [r i next]. rewrite PruneFor_unfold.
  destruct (produces _ _); [done|]. cbv zeta. by case_decide.
Qed.

Lemma PruneFor_fails_iff pn output :
  (PruneFor pn output).2 = Some (ErrBranchCouldNotDerive output)
  ↔ ¬ ∃ n, n ∈ nodes pn ∧ produces n output = true.
Proof.
  rewrite <-PruneFor_nil_iff. split; [congruence|]. intros Hne.
  destruct (PruneFor pn output).2 as [e|] eqn:He; [|done].
  by rewrite (PruneFor_error _ _ _ He).
Qed.

(** C6.  [PruneFor] fails, with its one error, exactly when no node of the
    tree applies a resolver whose output is the target, and then the node
    keeps no branch.  When it succeeds, every leaf that is left applies a
    resolver for the target, and every node that is left lies on a path
    from the root to such a leaf. *)
Theorem PruneFor_exact (pn : PossibilityNode) (target : rtype) :
  ((PruneFor pn target).2 = Some (ErrBranchCouldNotDerive target)
     ↔ ¬ ∃ n, n ∈ nodes pn ∧ produces n target = true)
  ∧ ((PruneFor pn target).2 ≠ None →
       (PruneFor pn target).2 = Some (ErrBranchCouldNotDerive target)
       ∧ NextSteps (PruneFor pn target).1 = [])
  ∧ ((PruneFor pn target).2 = None →
       ∀ n, n ∈ nodes (PruneFor pn target).1 →
         (NextSteps n = [] → produces n target = true)
         ∧ ∃ path leaf, descends (PruneFor pn target).1 path ∧ n ∈ path
             ∧ last path = Some leaf ∧ NextSteps leaf = []
             ∧ produces leaf target = true).
Proof.
  split_and!.
  - apply PruneFor_fails_iff.
  - intros Hne. split; [|by apply PruneFor_failed_empty].
    destruct (PruneFor pn target).2 as [e|] eqn:He; [|done].
    by rewrite (PruneFor_error _ _ _ He).
  - intros Hok n Hn.
    destruct (PruneFor_survivors pn target Hok n Hn)
      as (_ & Hleaf & path2 & leaf & Hpath2 & Hlast2 & Hnil & Hprod).
    split; [done|].
    destruct (descends_to _ _ Hn) as (path1 & Hpath1 & Hlast1).
    destruct (descends_head _ _ Hpath2) as (rest & ->).
    exists (path1 ++ rest), leaf. split_and!; try done.
    + by eapply descends_app.
    + apply elem_of_app. left. by apply last_Some_elem_of.
    + destruct path1 as [|x path1 _] using rev_ind; [done|].
      rewrite last_snoc in Hlast1. simplify_eq.
      rewrite <-(assoc_L (++)), last_app. change ([n] ++ rest) with (n :: rest).
      by rewrite Hlast2.
Qed.

(** ** The builder *)

Lemma eligible_iff inputs r :
  eligible inputs r ↔
    (OutputType r ∉ inputs) ∧ ¬ 0 < length (MissingInputs r inputs).
Proof.
  unfold eligible. destruct (MissingInputs r inputs); simpl; split;
    intros [? ?]; split; try done; lia.
Qed.

Lemma MissingInputs_nil r inputs :
  MissingInputs r inputs = [] ↔ InputTypes r ⊆ inputs.
Proof.
  unfold MissingInputs. split.
  - intros Hnil t Ht. destruct (decide (t ∈ inputs)) as [|Hn]; [done|].
    assert (t ∈ filter (λ w, w ∉ inputs) (InputTypes r)) as Hin
      by (by apply list_elem_of_filter).
    rewrite Hnil in Hin. by apply elem_of_nil in Hin.
  - intros Hsub. apply elem_of_nil_inv. intros t [Hn Ht]%list_elem_of_filter.
    by apply Hn, Hsub.
Qed.

(** The loop of the builder, said with [filter] and [mapM]: one recursive
    call per eligible resolver, in the order of [List]. *)
Lemma BuildPossibilityTree_unfold fuel pm root inputs :
  BuildPossibilityTree (S fuel) pm root inputs =
    steps ← mapM (λ p, BuildPossibilityTree fuel pm (Node (Some p) inputs [])
                         (inputs ++ [OutputType (deref p)]))
                 (filter (λ p, eligible inputs (deref p)) (List pm));
    Some (Node (nodeResolver root) (Inputs root) (NextSteps root ++ steps)).
Proof.
  cbn [BuildPossibilityTree]. generalize (List pm) as l. intros l. revert root.
  induction l as [|p l IH]; intros [r i next].
  { simpl. by rewrite (right_id_L [] (++)). }
  rewrite filter_cons. cbn [foldl mbind option_bind].
  destruct (decide (OutputType (deref p) ∈ inputs)) as [Hin|Hout].
  { rewrite decide_False by (intros [? ?]; done). apply IH. }
  destruct (decide (0 < length (MissingInputs (deref p) inputs))) as [Hmiss|Hfit].
  { rewrite decide_False by (intros [? ?]%eligible_iff; done). apply IH. }
  rewrite decide_True by (by apply eligible_iff).
  cbn [mapM].
  destruct (BuildPossibilityTree fuel pm (Node (Some p) inputs [])
              (inputs ++ [OutputType (deref p)])) as [pn|]; cbn.
  - rewrite IH. cbn.
    destruct (mapM _ _) as [steps|]; cbn; [|done].
    by rewrite <-(assoc_L (++)).
  - clear. induction l as [|q l IHl]; [done|]. apply IHl.
Qed.

Lemma BuildsLoop_inv pm inputs order steps :
  BuildsLoop pm inputs order steps ↔
  Forall2 (nextStep pm inputs) (filter (λ p, eligible inputs (deref p)) order) steps.
Proof.
  split.
  - induction 1 as [inputs|inputs r order steps Hin _ IH
                   |inputs r order steps Hout Hmiss _ IH
                   |inputs r order sub steps Hout Hfit Hsub _ IH];
      rewrite ?filter_cons; try constructor.
    + by rewrite decide_False by (intros [? ?]; done).
    + by rewrite decide_False by (intros [? ?]%eligible_iff; done).
    + rewrite decide_True by done. constructor; [|done]. by exists sub.
  - revert steps. induction order as [|r order IH]; intros steps.
    { rewrite filter_nil. intros ->%Forall2_nil_inv_l. constructor. }
    rewrite filter_cons. destruct (decide (eligible inputs (deref r))) as [[Hout Hfit]|Hn].
    + intros (c & steps' & (sub & -> & Hsub) & Hrest & ->)%Forall2_cons_inv_l.
      apply Loop_next_step; auto.
    + intros Hrest. destruct (decide (OutputType (deref r) ∈ inputs)).
      * apply Loop_have_output; auto.
      * apply Loop_missing_input; auto.
        destruct (decide (0 < length (MissingInputs (deref r) inputs))); [done|].
        destruct Hn. by apply eligible_iff.
Qed.

Lemma Builds_inv pm inputs steps :
  Builds pm inputs steps ↔
  ∃ order, order ≡ₚ List pm ∧
    Forall2 (nextStep pm inputs) (filter (λ p, eligible inputs (deref p)) order) steps.
Proof.
  split.
  - intros [? order ? Hperm Hloop]. exists order. by rewrite <-BuildsLoop_inv.
  - intros (order & Hperm & Hloop). econstructor; [done|]. by apply BuildsLoop_inv.
Qed.

(** What the executable builder returns is one of the trees of [Builds]. *)
Lemma BuildPossibilityTree_Builds fuel pm r i inputs t :
  BuildPossibilityTree fuel pm (Node r i []) inputs = Some t →
  ∃ steps, t = Node r i steps ∧ Builds pm inputs steps.
Proof.
  revert r i inputs t. induction fuel as [|fuel IH]; intros r i inputs t; [done|].
  rewrite BuildPossibilityTree_unfold. cbn.
  destruct (mapM _ _) as [steps|] eqn:Hsteps; [|done]. cbn. intros ?. simplify_eq.
  exists steps. split; [done|]. apply Builds_inv. exists (List pm). split; [done|].
  apply mapM_Some in Hsteps. eapply Forall2_impl; [done|].
  intros p c Hc. cbv beta in Hc. apply IH in Hc as (sub & -> & Hsub). by exists sub.
Qed.

Lemma PossibilityTree_Built pm inputs t :
  PossibilityTree pm inputs = Some t → Built pm inputs t.
Proof. intros Ht. by apply BuildPossibilityTree_Builds in Ht. Qed.

Lemma elem_of_outputTypes pm p : p ∈ List pm → OutputType (deref p) ∈ outputTypes pm.
Proof.
  intros Hp. unfold outputTypes. apply elem_of_list_to_set, list_elem_of_fmap. eauto.
Qed.

Lemma unproduced_step pm inputs p :
  p ∈ List pm → OutputType (deref p) ∉ inputs →
  unproduced pm (inputs ++ [OutputType (deref p)]) < unproduced pm inputs.
Proof.
  intros Hp Hout. unfold unproduced. apply subset_size.
  pose proof (elem_of_outputTypes pm p Hp) as Ho.
  rewrite list_to_set_app_L. split; [set_solver|].
  intros Hsub. specialize (Hsub (OutputType (deref p))). set_solver.
Qed.

Lemma size_list_to_set_length (l : list rtype) :
  size (list_to_set l : gset rtype) ≤ length l.
Proof.
  induction l as [|x l IH]; [done|]; simpl.
  destruct (decide (x ∈ (list_to_set l : gset rtype))) as [Hin|Hout].
  - replace ({[x]} ∪ list_to_set l : gset rtype) with (list_to_set l : gset rtype)
      by set_solver. lia.
  - rewrite size_union by set_solver. rewrite size_singleton. lia.
Qed.

Lemma unproduced_le_length pm inputs : unproduced pm inputs ≤ length (List pm).
Proof.
  unfold unproduced. trans (size (outputTypes pm)); [apply subseteq_size; set_solver|].
  unfold outputTypes. etrans; [apply size_list_to_set_length|]. by rewrite length_fmap.
Qed.

(** The builder terminates: fuel beyond the number of registered output
    types that are not yet available is never used up. *)
Lemma BuildPossibilityTree_is_Some fuel pm root inputs :
  unproduced pm inputs < fuel →
  is_Some (BuildPossibilityTree fuel pm root inputs).
Proof.
  revert root inputs. induction fuel as [|fuel IH]; intros root inputs Hfuel; [lia|].
  rewrite BuildPossibilityTree_unfold.
  assert (is_Some (mapM (λ p, BuildPossibilityTree fuel pm (Node (Some p) inputs [])
                                (inputs ++ [OutputType (deref p)]))
                        (filter (λ p, eligible inputs (deref p)) (List pm)))) as [steps ->].
  { apply mapM_is_Some, Forall_forall. intros p [[Hout _] Hp]%list_elem_of_filter.
    apply IH. pose proof (unproduced_step pm inputs p Hp Hout). lia. }
  by eexists.
Qed.

Lemma PossibilityTree_total pm inputs : is_Some (PossibilityTree pm inputs).
Proof.
  apply BuildPossibilityTree_is_Some.
  pose proof (unproduced_le_length pm inputs). lia.
Qed.

Lemma Forall2_Forall_r {A B} (R : A → B → Prop) (Q : B → Prop) l k :
  Forall2 R l k → Forall Q k → Forall2 (λ x y, R x y ∧ Q y) l k.
Proof.
  induction 1; intros HQ; [constructor|].
  apply Forall_cons in HQ as [? ?]. constructor; auto.
Qed.

(** Induction over the trees of [Builds]: a property of what was built
    for [inputs] may assume itself for what was built below each next
    step. *)
Lemma Builds_ind' pm (P : list rtype → list PossibilityNode → Prop) :
  (∀ inputs order steps,
     order ≡ₚ List pm →
     Forall2 (λ p c, ∃ sub, c = Node (Some p) inputs sub ∧
                Builds pm (inputs ++ [OutputType (deref p)]) sub ∧
                P (inputs ++ [OutputType (deref p)]) sub)
             (filter (λ p, eligible inputs (deref p)) order) steps →
     P inputs steps) →
  ∀ inputs steps, Builds pm inputs steps → P inputs steps.
Proof.
  intros step inputs steps.
  change steps with (NextSteps (Node None [] steps)).
  generalize (Node None [] steps) as pn. clear steps. intros pn. revert inputs.
  induction pn as [r i next IH] using PossibilityNode_ind'.
  intros inputs (order & Hperm & Hsteps)%Builds_inv. cbn [NextSteps] in *.
  apply (step inputs order); [done|].
  eapply Forall2_impl; [by apply Forall2_Forall_r|].
  intros p c [(sub & -> & Hsub) Hc]. exists sub. split_and!; [done..|].
  by apply (Hc _ Hsub).
Qed.

(** No step of a built tree applies a resolver whose output type was
    available from the start. *)
Lemma Builds_never_produces_available pm inputs steps target :
  Builds pm inputs steps → target ∈ inputs →
  ∀ c n, c ∈ steps → n ∈ nodes c → produces n target = false.
Proof.
  intros Hb. revert target.
  induction Hb as [inputs order steps Hperm Hsteps] using Builds_ind'.
  intros target Htarget c n Hc Hn.
  apply list_elem_of_lookup in Hc as [k Hk].
  destruct (Forall2_lookup_r _ _ _ _ _ Hsteps Hk) as (p & Hp & sub & -> & Hsub & IH).
  apply list_elem_of_lookup_2, list_elem_of_filter in Hp as [[Hout _] _].
  apply nodes_inv in Hn as [->|(c' & Hc' & Hn)].
  - unfold produces. cbn. apply bool_decide_eq_false. intros Heq. apply Hout. by rewrite Heq.
  - cbn in Hc'. apply (IH target) with c'; [|done..].
    apply elem_of_app. by left.
Qed.

(** C10.  When the target type is among the types the tree is built for,
    [PruneFor] fails on the tree, whatever the registry holds: the builder
    never applies a resolver whose output type is already available, so no
    node produces the target and no branch is kept, although the target is
    there from the start. *)
Theorem PruneFor_available_target_unreachable
    (pm : ProductionMap) (inputs : list rtype) (target : rtype) :
  target ∈ inputs →
  (∃ root, PossibilityTree pm inputs = Some root)
  ∧ ∀ root, Built pm inputs root →
      (PruneFor root target).2 = Some (ErrBranchCouldNotDerive target)
      ∧ NextSteps (PruneFor root target).1 = [].
Proof.
  intros Htarget. split; [apply PossibilityTree_total|].
  intros root (steps & -> & Hb).
  assert ((PruneFor (Node None [] steps) target).2
          = Some (ErrBranchCouldNotDerive target)) as Herr.
  { apply PruneFor_fails_iff. intros Hex. destruct Hex as (n & Hn & Hprod).
    apply nodes_inv in Hn as [->|(c & Hc & Hn)]; [done|].
    by rewrite (Builds_never_produces_available _ _ _ _ Hb Htarget c n) in Hprod. }
  split; [done|]. apply PruneFor_failed_empty. by rewrite Herr.
Qed.

Lemma Forall2_nextStep_resolvers pm inputs l steps :
  Forall2 (nextStep pm inputs) l steps → nodeResolver <$> steps = Some <$> l.
Proof.
  induction 1 as [|p c l steps (sub & -> & _) _ IH]; [done|].
  cbn. by rewrite IH.
Qed.

(** The next steps [Builds] makes for [inputs]: one per eligible
    resolver, each recording [inputs] and built in turn for [inputs]
    followed by the output type of its resolver. *)
Lemma Builds_next_steps pm inputs steps :
  Builds pm inputs steps →
  nodeResolver <$> steps ≡ₚ Some <$> filter (λ p, eligible inputs (deref p)) (List pm)
  ∧ ∀ c, c ∈ steps →
      ∃ p, p ∈ List pm ∧ eligible inputs (deref p) ∧ nodeResolver c = Some p ∧
           Inputs c = inputs ∧
           Builds pm (inputs ++ [OutputType (deref p)]) (NextSteps c).
Proof.
  intros (order & Hperm & Hsteps)%Builds_inv. split.
  - rewrite (Forall2_nextStep_resolvers _ _ _ _ Hsteps). by rewrite Hperm.
  - intros c [k Hk]%list_elem_of_lookup.
    destruct (Forall2_lookup_r _ _ _ _ _ Hsteps Hk) as (p & Hp & sub & -> & Hsub).
    apply list_elem_of_lookup_2, list_elem_of_filter in Hp as [Hel Hp].
    exists p. rewrite <-Hperm. done.
Qed.

(** Every node of a built tree got its next steps from a run of the
    builder on the types available at that node. *)
Lemma states_Builds pm inputs steps :
  Builds pm inputs steps →
  ∀ avail n, (avail, n) ∈ states inputs (Node None [] steps) →
    Builds pm avail (NextSteps n).
Proof.
  intros Hb.
  enough (∀ r i avail n, (avail, n) ∈ states inputs (Node r i steps) →
            Builds pm avail (NextSteps n)) by eauto.
  induction Hb as [inputs order steps Hperm Hsteps] using Builds_ind'.
  intros r i avail n [[= -> ->]|Hn]%elem_of_cons.
  { cbn. apply Builds_inv. exists order. split; [done|].
    eapply Forall2_impl; [done|]. intros p c (sub & -> & ? & _). by exists sub. }
  apply list_elem_of_bind in Hn as (c & Hn & [k Hk]%list_elem_of_lookup).
  destruct (Forall2_lookup_r _ _ _ _ _ Hsteps Hk) as (p & Hp & sub & -> & Hsub & IH).
  cbn in Hn. by apply (IH (Some p) inputs).
Qed.

(** C4.  At every node of the tree that [PossibilityTree] returns, and of
    every tree it can return when the registry is visited in another
    order, with [avail] the types available there, the next steps are
    exactly the registered resolvers whose output type is not in [avail]
    and that miss no input in [avail], one step for each; and each such
    step records [avail] as what was available before it and was itself
    expanded for [avail] followed by its resolver's output type. *)
Theorem builder_next_steps (pm : ProductionMap) (inputs : list rtype)
    (root : PossibilityNode) :
  PossibilityTree pm inputs = Some root ∨ Built pm inputs root →
  ∀ avail n, (avail, n) ∈ states inputs root →
    (∀ p, p ∈ List pm →
       (∃ c, c ∈ NextSteps n ∧ nodeResolver c = Some p)
       ↔ (OutputType (deref p) ∉ avail) ∧ MissingInputs (deref p) avail = [])
    ∧ nodeResolver <$> NextSteps n
        ≡ₚ Some <$> filter (λ p, eligible avail (deref p)) (List pm)
    ∧ ∀ c, c ∈ NextSteps n →
        ∃ p, p ∈ List pm ∧ nodeResolver c = Some p ∧ Inputs c = avail ∧
             (avail ++ [OutputType (deref p)], c) ∈ states inputs root ∧
             Builds pm (avail ++ [OutputType (deref p)]) (NextSteps c).
Proof.
  intros Hroot.
  assert (Built pm inputs root) as (steps & -> & Hb).
  { destruct Hroot as [Hroot|Hroot]; [by apply PossibilityTree_Built | done]. }
  intros avail n Hn.
  pose proof (states_Builds _ _ _ Hb _ _ Hn) as Hbn.
  destruct (Builds_next_steps _ _ _ Hbn) as [Hperm Hsteps]. split_and!.
  - intros p Hp. split.
    + intros (c & Hc & Hres). destruct (Hsteps c Hc) as (p' & _ & Hel & Hres' & _).
      by simplify_eq.
    + intros Hel.
      assert (Some p ∈ nodeResolver <$> NextSteps n) as Hin.
      { rewrite Hperm. apply list_elem_of_fmap_2. by apply list_elem_of_filter. }
      apply list_elem_of_fmap in Hin as (c & ? & ?). eauto.
  - done.
  - intros c Hc. destruct (Hsteps c Hc) as (p & Hp & _ & Hres & Hin & Hsub).
    exists p. split_and!; try done.
    clear -Hn Hc Hres. revert Hn. generalize (Node None [] steps) as t. intros t.
    revert inputs. induction t as [r i next IH] using PossibilityNode_ind'.
    intros inputs [[= -> ->]|Hn]%elem_of_cons.
    + cbn in Hc. cbn. right. apply list_elem_of_bind. exists c. split; [|done].
      rewrite Hres. cbn. destruct c. left.
    + apply list_elem_of_bind in Hn as (c' & Hn & Hc').
      rewrite Forall_forall in IH. cbn. right. apply list_elem_of_bind.
      exists c'. split; [|done]. by apply IH.
Qed.

(** ** Depth of the tree *)

Lemma depth_unfold r i next :
  depth (Node r i next) = foldr (λ node d, S (depth node) `max` d) 0 next.
Proof. done. Qed.

Lemma depth_le r i next b :
  (∀ c, c ∈ next → S (depth c) ≤ b) → depth (Node r i next) ≤ b.
Proof.
  rewrite depth_unfold. induction next as [|c next IH]; intros Hb; simpl; [lia|].
  pose proof (Hb c ltac:(left)).
  assert (foldr (λ node d, S (depth node) `max` d) 0 next ≤ b); [|lia].
  apply IH. intros c' Hc'. apply Hb. by right.
Qed.

Lemma depth_eq r i next b :
  next ≠ [] → (∀ c, c ∈ next → S (depth c) = b) → depth (Node r i next) = b.
Proof.
  rewrite depth_unfold. induction next as [|c next IH]; intros Hne Hb; [done|].
  simpl. pose proof (Hb c ltac:(left)).
  destruct next as [|c' next']; [simpl; lia|].
  assert (foldr (λ node d, S (depth node) `max` d) 0 (c' :: next') = b) as Heq; [|lia].
  apply IH; [done|]. intros c'' Hc''. apply Hb. by right.
Qed.

Lemma unproduced_step_eq pm inputs p :
  p ∈ List pm → OutputType (deref p) ∉ inputs →
  S (unproduced pm (inputs ++ [OutputType (deref p)])) = unproduced pm inputs.
Proof.
  intros Hp Hout. unfold unproduced.
  pose proof (elem_of_outputTypes pm p Hp) as Ho.
  replace (outputTypes pm ∖ list_to_set (inputs ++ [OutputType (deref p)]))
    with ((outputTypes pm ∖ list_to_set inputs) ∖ {[ OutputType (deref p) ]})
    by (rewrite list_to_set_app_L; set_solver).
  rewrite size_difference by set_solver. rewrite size_singleton.
  destruct (decide (size (outputTypes pm ∖ list_to_set inputs) = 0))
    as [Hz%size_empty_inv|]; [|lia].
  set_solver.
Qed.

(** The chain of applications below a node is no longer than the number
    of registered output types that are not yet available. *)
Lemma Builds_depth_le pm inputs steps r i :
  Builds pm inputs steps → depth (Node r i steps) ≤ unproduced pm inputs.
Proof.
  intros Hb. revert r i.
  induction Hb as [inputs order steps Hperm Hsteps] using Builds_ind'.
  intros r i. apply depth_le. intros c [k Hk]%list_elem_of_lookup.
  destruct (Forall2_lookup_r _ _ _ _ _ Hsteps Hk) as (p & Hp & sub & -> & Hsub & IH).
  apply list_elem_of_lookup_2, list_elem_of_filter in Hp as [[Hout _] Hp].
  rewrite Hperm in Hp. rewrite <-(unproduced_step_eq pm inputs p) by done.
  specialize (IH (Some p) inputs). lia.
Qed.

(** When, from [base] on, some resolver is eligible as long as some
    registered output type is unavailable, the chain reaches all of them. *)
Lemma Builds_depth_eq pm (base : list rtype) inputs steps r i :
  (∀ avail, base ⊆ avail → (∃ t, t ∈ outputTypes pm ∧ t ∉ avail) →
     ∃ p, p ∈ List pm ∧ eligible avail (deref p)) →
  Builds pm inputs steps → base ⊆ inputs →
  depth (Node r i steps) = unproduced pm inputs.
Proof.
  intros Hprogress Hb. revert r i.
  induction Hb as [inputs order steps Hperm Hsteps] using Builds_ind'.
  intros r i Hbase.
  destruct (decide (unproduced pm inputs = 0)) as [Hzero|Hpos].
  { enough (depth (Node r i steps) ≤ unproduced pm inputs) by lia.
    apply Builds_depth_le, Builds_inv. exists order. split; [done|].
    eapply Forall2_impl; [done|]. intros p c (sub & -> & ? & _). by exists sub. }
  apply depth_eq.
  - destruct (size_pos_elem_of (outputTypes pm ∖ list_to_set inputs)) as [t Ht];
      [unfold unproduced in Hpos; lia|].
    destruct (Hprogress inputs Hbase) as (p & Hp & Hel); [exists t; set_solver|].
    assert (p ∈ filter (λ p, eligible inputs (deref p)) order) as Hin.
    { apply list_elem_of_filter. by rewrite Hperm. }
    intros ->. apply Forall2_nil_inv_r in Hsteps. rewrite Hsteps in Hin.
    by apply elem_of_nil in Hin.
  - intros c [k Hk]%list_elem_of_lookup.
    destruct (Forall2_lookup_r _ _ _ _ _ Hsteps Hk) as (p & Hp & sub & -> & Hsub & IH).
    apply list_elem_of_lookup_2, list_elem_of_filter in Hp as [[Hout _] Hp].
    rewrite Hperm in Hp. rewrite <-(unproduced_step_eq pm inputs p) by done.
    f_equal. apply IH. intros t Ht. apply elem_of_app. left. by apply Hbase.
Qed.

Lemma elem_of_outputTypes_inv pm t :
  t ∈ outputTypes pm → ∃ p, p ∈ List pm ∧ OutputType (deref p) = t.
Proof.
  unfold outputTypes. rewrite elem_of_list_to_set, list_elem_of_fmap. naive_solver.
Qed.

Lemma edge_input pm a b : edge pm a b → a ∈ List pm ≫= λ p, InputTypes (deref p).
Proof. intros (p & Hp & Ha & _). apply list_elem_of_bind. eauto. Qed.

Lemma not_source_is_output pm t :
  t ∈ (List pm ≫= λ p, InputTypes (deref p)) → t ∉ sourceTypes pm → t ∈ outputTypes pm.
Proof.
  intros Hin Hns. destruct (decide (t ∈ outputTypes pm)) as [|Hno]; [done|].
  destruct Hns. by apply list_elem_of_filter.
Qed.

(** In an acyclic registry, once the source types are available, some
    resolver is eligible as long as an output type is still missing. *)
Lemma Acyclic_progress pm avail :
  Acyclic pm → sourceTypes pm ⊆ avail →
  (∃ t, t ∈ outputTypes pm ∧ t ∉ avail) →
  ∃ p, p ∈ List pm ∧ eligible avail (deref p).
Proof.
  intros Hacyc Hsrc (t & Ht & Hnt).
  set (R := λ t t' : rtype, (t' ∉ avail) ∧ edge pm t' t).
  assert (∀ x y, tc R x y → tc (edge pm) y x) as Hflip.
  { induction 1 as [x y [_ ?]|x y z [_ ?] _ IH]; [by apply tc_once|].
    by eapply tc_r. }
  assert (sn R t) as Hsn.
  { apply tc_finite_sn.
    - intros x Hx. by apply (Hacyc x), Hflip.
    - exists (List pm ≫= λ p, InputTypes (deref p)). intros y Hy.
      clear -Hy. induction Hy as [x y [_ ?]|x y z _ _ IH]; [by eapply edge_input | done]. }
  induction Hsn as [t _ IH].
  destruct (elem_of_outputTypes_inv _ _ Ht) as (p & Hp & Hpt).
  destruct (decide (MissingInputs (deref p) avail = [])) as [Hfit|Hmiss].
  { exists p. split; [done|]. split; [by rewrite Hpt | done]. }
  destruct (MissingInputs (deref p) avail) as [|m ms] eqn:Hm; [done|].
  assert (m ∈ MissingInputs (deref p) avail) as Hmin by (rewrite Hm; left).
  apply list_elem_of_filter in Hmin as [Hmavail Hmp].
  assert (edge pm m t) as Hedge by (exists p; done).
  apply (IH m).
  - by split.
  - apply not_source_is_output; [by eapply edge_input|]. intros ?. by apply Hmavail, Hsrc.
  - done.
Qed.

Lemma unproduced_sourceTypes pm :
  unproduced pm (sourceTypes pm) = size (outputTypes pm).
Proof.
  unfold unproduced. f_equal. apply set_eq. intros t.
  rewrite elem_of_difference, elem_of_list_to_set. unfold sourceTypes.
  rewrite list_elem_of_filter. naive_solver.
Qed.

(** ** Pointers into the registry *)

Lemma elem_of_List pm p :
  p ∈ List pm ↔ ∃ rs, pm !! (addr p).1 = Some rs ∧ rs !! (addr p).2 = Some (deref p).
Proof.
  unfold List. rewrite list_elem_of_bind. split.
  - intros ([t rs] & Hp & Hrs). apply elem_of_map_to_list in Hrs.
    apply elem_of_lookup_imap in Hp as (i & r & -> & Hi). by exists rs.
  - intros (rs & Hrs & Hi). exists ((addr p).1, rs). split.
    + apply elem_of_lookup_imap. exists (addr p).2, (deref p).
      split; [|done]. by destruct p as [[t i] r].
    + by apply elem_of_map_to_list.
Qed.

Lemma List_addr_inj pm p q : p ∈ List pm → q ∈ List pm → addr p = addr q → p = q.
Proof.
  intros (rs & Hrs & Hi)%elem_of_List (rs' & Hrs' & Hi')%elem_of_List Heq.
  destruct p as [ap rp], q as [aq rq]. simpl in *. subst. by simplify_eq.
Qed.

Lemma elem_of_bucketPtrs pm t q :
  q ∈ bucketPtrs pm t ↔ (addr q).1 = t ∧ q ∈ List pm.
Proof.
  unfold bucketPtrs. rewrite elem_of_lookup_imap, elem_of_List.
  rewrite lookup_total_alt. split.
  - intros (i & r & -> & Hi). split; [done|]. simpl.
    destruct (pm !! t) as [rs|]; [|done]. by exists rs.
  - intros [<- (rs & Hrs & Hi)]. rewrite Hrs. simpl.
    exists (addr q).2, (deref q). split; [|done]. by destruct q as [[t i] r].
Qed.

Lemma walks_iff pm p q :
  walks pm p q ↔ (addr q).1 ∈ InputTypes (deref p) ∧ q ∈ List pm.
Proof.
  unfold walks, successors. rewrite list_elem_of_bind. split.
  - intros (t & [<- Hq]%elem_of_bucketPtrs & Ht). done.
  - intros [Ht Hq]. exists (addr q).1. split; [|done]. by apply elem_of_bucketPtrs.
Qed.

Lemma walks_List pm p q : walks pm p q → q ∈ List pm.
Proof. by intros [_ ?]%walks_iff. Qed.

Lemma tc_walks_List pm p q : tc (walks pm) p q → q ∈ List pm.
Proof. induction 1; eauto using walks_List. Qed.

(** ** HasCycle *)

Lemma anyOf_spec {A} (f : A → option bool) (l : list A) :
  (∀ x, x ∈ l → is_Some (f x)) →
  ∃ b, anyOf f l = Some b ∧ (b = true ↔ ∃ x, x ∈ l ∧ f x = Some true).
Proof.
  induction l as [|x l IH]; intros Hf.
  { exists false. split; [done|]. split; [done|]. by intros (x & ?%elem_of_nil & _). }
  simpl. destruct (Hf x ltac:(left)) as [[|] Hx]; rewrite Hx.
  - exists true. split; [done|]. split; [|done]. intros _. exists x. split; [left | done].
  - destruct IH as (b & -> & Hb); [intros y Hy; apply Hf; by right|].
    exists b. split; [done|]. rewrite Hb. split.
    + intros (y & ? & ?). exists y. split; [by right | done].
    + intros (y & [->|?]%elem_of_cons & ?); [congruence|]. eauto.
Qed.

Lemma unvisited_step (pm : ProductionMap) (p : ResolverPtr) (visited : gset (rtype * nat)) :
  p ∈ List pm → addr p ∉ visited →
  size (addresses pm ∖ ({[ addr p ]} ∪ visited)) < size (addresses pm ∖ visited).
Proof.
  intros Hp Hv. apply subset_size.
  assert (addr p ∈ addresses pm) as Hin.
  { apply elem_of_list_to_set, list_elem_of_fmap. eauto. }
  split; [set_solver|]. intros Hsub. specialize (Hsub (addr p)). set_solver.
Qed.

(** [HasCycle] terminates, and answers whether a walk from [r] revisits. *)
Lemma HasCycle_spec (fuel : nat) (pm : ProductionMap) (p : ResolverPtr) (visited : gset (rtype * nat)) :
  p ∈ List pm →
  size (addresses pm ∖ visited) < fuel →
  ∃ b, HasCycle fuel pm p visited = Some b ∧ (b = true ↔ Revisits pm p visited).
Proof.
  revert p visited. induction fuel as [|fuel IH]; intros p visited Hp Hfuel; [lia|].
  cbn [HasCycle]. destruct (decide (addr p ∈ visited)) as [Hin|Hout].
  { exists true. split; [done|]. split; [|done]. intros _. by constructor. }
  cbv zeta.
  destruct (anyOf_spec (λ r', HasCycle fuel pm r' ({[addr p]} ∪ visited)) (successors pm p))
    as (b & Hb & Hiff).
  { intros q Hq. destruct (IH q ({[addr p]} ∪ visited)) as (b & -> & _); [| |done].
    - by eapply walks_List.
    - pose proof (unvisited_step pm p visited Hp Hout). lia. }
  exists b. split; [done|]. rewrite Hiff. split.
  - intros (q & Hq & Hcall). apply Revisits_later with q; [done..|].
    destruct (IH q ({[addr p]} ∪ visited)) as (b' & Hb' & <-).
    + by eapply walks_List.
    + pose proof (unvisited_step pm p visited Hp Hout). lia.
    + congruence.
  - intros Hrev. inversion Hrev as [|? q ? _ Hq Hrest]; subst; [done|].
    exists q. split; [done|].
    destruct (IH q ({[addr p]} ∪ visited)) as (b' & Hb' & Hb'iff).
    + by eapply walks_List.
    + pose proof (unvisited_step pm p visited Hp Hout). lia.
    + rewrite Hb'. f_equal. by apply Hb'iff.
Qed.

Lemma addresses_size (pm : ProductionMap) (visited : gset (rtype * nat)) :
  size (addresses pm ∖ visited) ≤ length (List pm).
Proof.
  trans (size (addresses pm)); [apply subseteq_size; set_solver|].
  unfold addresses. rewrite <-(length_fmap addr (List pm)).
  generalize (addr <$> List pm) as l. intros l.
  induction l as [|x l IH]; [done|]. simpl.
  destruct (decide (x ∈ (list_to_set l : gset (rtype * nat)))) as [Hin|Hout].
  - replace ({[x]} ∪ list_to_set l : gset (rtype * nat))
      with (list_to_set l : gset (rtype * nat)) by set_solver. lia.
  - rewrite size_union by set_solver. rewrite size_singleton. lia.
Qed.

(** [IsDAG] terminates with the fuel it is given, and answers whether no
    walk from a registered resolver revisits. *)
Lemma IsDAG_fuel_total (pm : ProductionMap) :
  ∃ b, IsDAG_fuel (S (length (List pm))) pm = Some b
       ∧ (b = true ↔ ∀ p, p ∈ List pm → ¬ Revisits pm p ∅).
Proof.
  unfold IsDAG_fuel.
  destruct (anyOf_spec (λ r, HasCycle (S (length (List pm))) pm r ∅) (List pm))
    as (b & -> & Hiff).
  { intros p Hp. destruct (HasCycle_spec (S (length (List pm))) pm p ∅ Hp)
      as (b & -> & _); [|done].
    pose proof (addresses_size pm ∅). lia. }
  exists (negb b). split; [done|].
  rewrite negb_true_iff, <-not_true_iff_false, Hiff. split.
  - intros Hnone p Hp Hrev. apply Hnone. exists p. split; [done|].
    destruct (HasCycle_spec (S (length (List pm))) pm p ∅ Hp) as (b' & -> & Hb').
    + pose proof (addresses_size pm ∅). lia.
    + f_equal. by apply Hb'.
  - intros Hnone (p & Hp & Hcall). apply (Hnone p Hp).
    destruct (HasCycle_spec (S (length (List pm))) pm p ∅ Hp) as (b' & Hcall' & Hb').
    + pose proof (addresses_size pm ∅). lia.
    + apply Hb'. congruence.
Qed.

Lemma IsDAG_true (pm : ProductionMap) :
  IsDAG pm = true ↔ ∀ p, p ∈ List pm → ¬ Revisits pm p ∅.
Proof.
  unfold IsDAG. destruct (IsDAG_fuel_total pm) as (b & -> & Hb). done.
Qed.

(** A walk that revisits closes a cycle. *)
Lemma Revisits_cycle (pm : ProductionMap) (p : ResolverPtr) (visited : gset (rtype * nat)) :
  Revisits pm p visited → p ∈ List pm →
  (∀ q, q ∈ List pm → addr q ∈ visited → tc (walks pm) q p) →
  ∃ q, tc (walks pm) q q.
Proof.
  induction 1 as [p visited Hin|p q visited Hout Hstep _ IH]; intros Hp Hvisited.
  - exists p. by apply Hvisited.
  - apply IH; [by eapply walks_List|].
    intros q' Hq' [Heq%elem_of_singleton|Hin]%elem_of_union.
    + rewrite (List_addr_inj pm q' p) by done. by apply tc_once.
    + eapply tc_r; [|done]. by apply Hvisited.
Qed.

(** A walk that can go on for ever revisits. *)
Lemma cycle_Revisits (pm : ProductionMap) (n : nat) (p : ResolverPtr)
    (visited : gset (rtype * nat)) :
  size (addresses pm ∖ visited) < n → p ∈ List pm →
  (∃ m, rtc (walks pm) p m ∧ tc (walks pm) m m) →
  Revisits pm p visited.
Proof.
  revert p visited. induction n as [|n IH]; intros p visited Hn Hp (m & Hpm & Hm); [lia|].
  destruct (decide (addr p ∈ visited)) as [Hin|Hout]; [by constructor|].
  assert (∃ q, walks pm p q ∧ rtc (walks pm) q m) as (q & Hq & Hqm).
  { inversion Hpm as [|? q ? Hq Hqm]; subst; [|by eauto].
    inversion Hm as [? ? Hq|? q ? Hq Hqm]; subst.
    - exists m. split; [done | apply rtc_refl].
    - exists q. split; [done | by apply tc_rtc]. }
  apply Revisits_later with q; [done..|]. apply IH.
  - pose proof (unvisited_step pm p visited Hp Hout). lia.
  - by eapply walks_List.
  - by exists m.
Qed.

(** [IsDAG] answers whether the graph that [HasCycle] walks is acyclic. *)
Lemma IsDAG_walks (pm : ProductionMap) :
  IsDAG pm = true ↔ ∀ q, ¬ tc (walks pm) q q.
Proof.
  rewrite IsDAG_true. split.
  - intros Hnone q Hq. apply (Hnone q); [by eapply tc_walks_List|].
    apply (cycle_Revisits pm (S (length (List pm)))).
    + pose proof (addresses_size pm ∅). lia.
    + by eapply tc_walks_List.
    + exists q. split; [apply rtc_refl | done].
  - intros Hnone p Hp Hrev.
    destruct (Revisits_cycle pm p ∅ Hrev Hp) as (q & Hq); [set_solver|].
    by apply (Hnone q).
Qed.

(** ** The two graphs *)

Lemma WellFormed_key pm p :
  WellFormed pm → p ∈ List pm → (addr p).1 = OutputType (deref p).
Proof.
  intros Hwf (rs & Hrs & Hi)%elem_of_List.
  destruct (Hwf _ _ Hrs) as [_ Hall].
  symmetry. by apply Hall, list_elem_of_lookup_2 with (addr p).2.
Qed.

Lemma walks_edge pm p q :
  WellFormed pm → p ∈ List pm → walks pm p q →
  edge pm (OutputType (deref q)) (OutputType (deref p)).
Proof.
  intros Hwf Hp [Hin Hq]%walks_iff. exists p. split_and!; [done| |done].
  by rewrite <-(WellFormed_key pm q).
Qed.

Lemma edge_walks pm p q :
  WellFormed pm → p ∈ List pm → q ∈ List pm →
  OutputType (deref q) ∈ InputTypes (deref p) → walks pm p q.
Proof.
  intros Hwf Hp Hq Hin. apply walks_iff. split; [|done].
  by rewrite (WellFormed_key pm q).
Qed.

Lemma tc_walks_edge pm p q :
  WellFormed pm → p ∈ List pm → tc (walks pm) p q →
  tc (edge pm) (OutputType (deref q)) (OutputType (deref p)).
Proof.
  intros Hwf Hp Hpq. induction Hpq as [p q Hstep|p y q Hstep _ IH].
  - by apply tc_once, walks_edge.
  - eapply tc_r; [apply IH; by eapply walks_List|]. by apply walks_edge.
Qed.

Lemma tc_edge_walks pm a b :
  WellFormed pm → tc (edge pm) a b →
  ∃ q, q ∈ List pm ∧ OutputType (deref q) = b ∧
       ∀ p, p ∈ List pm → OutputType (deref p) = a → tc (walks pm) q p.
Proof.
  intros Hwf Hab. induction Hab as [a b (q & Hq & Ha & Hb)|a y b (q1 & Hq1 & Ha & Hy) _ IH].
  - exists q. split_and!; [done..|]. intros p Hp Hpa.
    apply tc_once, edge_walks; [done..|]. by rewrite Hpa.
  - destruct IH as (q & Hq & Hb & Hreach). exists q. split_and!; [done..|].
    intros p Hp Hpa. apply tc_r with q1; [by apply Hreach|].
    apply edge_walks; [done..|]. by rewrite Hpa.
Qed.

(** On a well-formed registry [IsDAG] decides whether the dependency
    graph over types is acyclic. *)
Lemma IsDAG_Acyclic pm : WellFormed pm → IsDAG pm = true ↔ Acyclic pm.
Proof.
  intros Hwf. rewrite IsDAG_walks. split.
  - intros Hnone t (q & Hq & Hqt & Hreach)%tc_edge_walks; [|done].
    apply (Hnone q). by apply Hreach.
  - intros Hacyc q Hq. apply (Hacyc (OutputType (deref q))).
    apply tc_walks_edge; [done| |done]. by eapply tc_walks_List.
Qed.

(** ** Add *)

Lemma Add_unfold pm r :
  Add pm r =
    match Validate r with
    | Some err => (pm, Some (ErrFailedToAdd err))
    | None =>
        if existsb (λ resolver, bool_decide (ftype r = ftype resolver))
                   (pm !!! OutputType r)
        then (pm, Some ErrResolverConflict)
        else if IsDAG (<[OutputType r := (pm !!! OutputType r) ++ [r]]> pm)
        then (<[OutputType r := (pm !!! OutputType r) ++ [r]]> pm, None)
        else (if decide (length (pm !!! OutputType r) = 0)
              then delete (OutputType r) pm
              else <[OutputType r := pm !!! OutputType r]> pm,
              Some ErrCircularDependencies)
    end.
Proof.
  unfold Add. destruct (Validate r); [done|]. cbv zeta.
  destruct (existsb _ _); [done|].
  destruct (IsDAG _); [done|]. cbn [negb].
  rewrite !lookup_total_insert_eq, length_app. cbn [length].
  replace (length (pm !!! OutputType r) + 1 - 1) with (length (pm !!! OutputType r)) by lia.
  rewrite take_app_length, insert_insert_eq.
  case_decide; [|done]. by rewrite delete_insert_eq.
Qed.

(** A failed [Add] leaves a registry without empty buckets as it was. *)
Lemma Add_failed_unchanged pm r :
  (∀ t, pm !! t ≠ Some []) → (Add pm r).2 ≠ None → (Add pm r).1 = pm.
Proof.
  intros Hne. rewrite Add_unfold. destruct (Validate r); [done|].
  destruct (existsb _ _); [done|]. destruct (IsDAG _); [done|]. intros _. cbn.
  rewrite lookup_total_alt.
  destruct (pm !! OutputType r) as [rs|] eqn:Hrs; cbn.
  - rewrite decide_False; [by apply insert_id|].
    intros Hlen%length_zero_iff_nil. subst. by apply (Hne (OutputType r)).
  - by apply delete_id.
Qed.

Lemma WellFormed_Add pm r : WellFormed pm → WellFormed (Add pm r).1.
Proof.
  intros Hwf.
  destruct (decide ((Add pm r).2 = None)) as [Hok|Hfail].
  2:{ rewrite Add_failed_unchanged; [done| |done].
      intros t Ht. by destruct (Hwf _ _ Ht). }
  revert Hok. rewrite Add_unfold. destruct (Validate r) eqn:Hval; [done|].
  destruct (existsb _ _); [done|]. destruct (IsDAG _); [|done]. intros _. cbn.
  intros t rs. destruct (decide (t = OutputType r)) as [->|Hne].
  - rewrite lookup_insert_eq. intros ?. simplify_eq.
    split; [by destruct (pm !!! OutputType r)|].
    intros r' [Hr'|Hr'%list_elem_of_singleton]%elem_of_app; [|by subst].
    rewrite lookup_total_alt in Hr'.
    destruct (pm !! OutputType r) as [rs|] eqn:Hrs; [|by apply elem_of_nil in Hr'].
    by apply (Hwf _ _ Hrs).
  - rewrite lookup_insert_ne by done. apply Hwf.
Qed.

Lemma Reachable_WellFormed pm : Reachable pm → WellFormed pm.
Proof.
  induction 1 as [|pm r _ IH]; [|by apply WellFormed_Add].
  intros t rs Ht. by rewrite lookup_empty in Ht.
Qed.

Lemma IsDAG_empty : IsDAG ∅ = true.
Proof. done. Qed.

Lemma Reachable_IsDAG pm : Reachable pm → IsDAG pm = true.
Proof.
  induction 1 as [|pm r Hreach IH]; [apply IsDAG_empty|].
  destruct (decide ((Add pm r).2 = None)) as [Hok|Hfail].
  2:{ rewrite Add_failed_unchanged; [done| |done].
      intros t Ht. by destruct (Reachable_WellFormed _ Hreach _ _ Ht). }
  revert Hok. rewrite Add_unfold. destruct (Validate r) eqn:Hval; [done|].
  destruct (existsb _ _); [done|].
  destruct (IsDAG (<[_ := _]> pm)) eqn:Hdag; [|done]. by intros _.
Qed.

(** ** Count *)

Lemma Count_unfold r i next :
  Count (Node r i next) = S (sum_list_with Count next).
Proof.
  cbn [Count].
  enough (∀ acc, foldl (λ count node, count + Count node) acc next
                 = acc + sum_list_with Count next) as -> by done.
  induction next as [|c next IH]; intros acc; simpl; [lia|].
  rewrite IH. lia.
Qed.

Lemma sum_list_with_Forall2 {A B} (f : A → nat) (g : B → nat) l k :
  Forall2 (λ x y, g y = f x) l k → sum_list_with g k = sum_list_with f l.
Proof. induction 1 as [|x y l k Hxy _ IH]; simpl; [done|]. by rewrite Hxy, IH. Qed.

Lemma sum_list_with_filter_deref (g : Resolver → nat) (P : Resolver → Prop)
    `{!∀ r, Decision (P r)} (l : list ResolverPtr) :
  sum_list_with (λ p, g (deref p)) (filter (λ p, P (deref p)) l)
  = sum_list_with g (filter P (deref <$> l)).
Proof.
  induction l as [|p l IH]; [done|]. rewrite fmap_cons, !filter_cons.
  destruct (decide (P (deref p))); simpl; by rewrite IH.
Qed.

Lemma depth_child r i next c : c ∈ next → S (depth c) ≤ depth (Node r i next).
Proof.
  rewrite depth_unfold. induction next as [|c' next IH]; [by intros ?%elem_of_nil|].
  simpl. intros [->|Hc]%elem_of_cons; [lia|]. specialize (IH Hc). lia.
Qed.

(** What [Builds] leaves below a node is counted by [possibilities], from
    the registered resolvers in any order. *)
Lemma Builds_Count pm inputs steps :
  Builds pm inputs steps →
  ∀ fuel rs r i, rs ≡ₚ deref <$> List pm → depth (Node r i steps) < fuel →
    sum_list_with Count steps = possibilities fuel rs inputs.
Proof.
  induction 1 as [inputs order steps Hperm Hsteps] using Builds_ind'.
  intros [|fuel] rs r i Hrs Hdepth; [lia|]. cbn [possibilities].
  rewrite Hrs, <-Hperm, <-sum_list_with_filter_deref.
  apply sum_list_with_Forall2.
  apply Forall2_same_length_lookup. split; [by eapply Forall2_length|].
  intros k p c Hp Hc.
  destruct (Forall2_lookup_lr _ _ _ _ _ _ Hsteps Hp Hc) as (sub & -> & _ & IH).
  rewrite Count_unfold. f_equal. apply (IH fuel rs (Some p) inputs).
  - done.
  - apply list_elem_of_lookup_2 in Hc.
    pose proof (depth_child r i steps _ Hc). lia.
Qed.

(** The count of a built tree is fixed by the resolvers registered. *)
Lemma Built_Count pm1 pm2 inputs root1 root2 :
  deref <$> List pm1 ≡ₚ deref <$> List pm2 →
  Built pm1 inputs root1 → Built pm2 inputs root2 →
  Count root1 = Count root2.
Proof.
  intros Hperm (steps1 & -> & Hb1) (steps2 & -> & Hb2).
  rewrite !Count_unfold. f_equal.
  set (fuel := S (depth (Node None [] steps1) `max` depth (Node None [] steps2))).
  rewrite (Builds_Count _ _ _ Hb1 fuel (deref <$> List pm1) None []) by (done || lia).
  rewrite (Builds_Count _ _ _ Hb2 fuel (deref <$> List pm1) None []) by (done || lia).
  done.
Qed.

(** ** Order of registration *)

Lemma deref_imap t (rs : list Resolver) :
  deref <$> imap (λ j r, MkPtr (t, j) r) rs = rs.
Proof.
  rewrite fmap_imap. etrans; [|apply list_fmap_id].
  rewrite <-imap_const. by apply imap_ext.
Qed.

Lemma deref_List pm : deref <$> List pm = map_to_list pm ≫= snd.
Proof.
  unfold List. generalize (map_to_list pm) as l. intros l.
  induction l as [|[t rs] l IH]; [done|].
  rewrite !bind_cons, fmap_app, IH, deref_imap. done.
Qed.

Lemma deref_List_insert pm t r :
  deref <$> List (<[t := (pm !!! t) ++ [r]]> pm) ≡ₚ (deref <$> List pm) ++ [r].
Proof.
  rewrite !deref_List, lookup_total_alt.
  destruct (pm !! t) as [rs|] eqn:Hrs; simpl.
  - assert (map_to_list (<[t:=rs ++ [r]]> pm)
            ≡ₚ (t, rs ++ [r]) :: map_to_list (delete t pm)) as Hnew.
    { rewrite <-insert_delete_eq. apply map_to_list_insert, lookup_delete_eq. }
    assert (map_to_list pm ≡ₚ (t, rs) :: map_to_list (delete t pm)) as Hold.
    { rewrite <-(insert_delete_id pm t rs) at 1 by done.
      apply map_to_list_insert, lookup_delete_eq. }
    rewrite Hnew, Hold, !bind_cons. simpl. by rewrite <-(assoc_L (++)), (comm (++) [r]), (assoc_L (++)).
  - rewrite map_to_list_insert by done. rewrite bind_cons. simpl.
    by rewrite (comm (++) _ [r]).
Qed.

Lemma Add_None pm r :
  (Add pm r).2 = None → (Add pm r).1 = <[OutputType r := (pm !!! OutputType r) ++ [r]]> pm.
Proof.
  rewrite Add_unfold. destruct (Validate r); [done|].
  destruct (existsb _ _); [done|]. by destruct (IsDAG _).
Qed.

Lemma AllAdded_List pm rs :
  AllAdded pm rs → deref <$> List (AddAll pm rs) ≡ₚ (deref <$> List pm) ++ rs.
Proof.
  revert pm. induction rs as [|r rs IH]; intros pm; simpl.
  { by rewrite (right_id_L [] (++)). }
  intros [Hok Hrest]. unfold AddAll in *. rewrite IH by done.
  rewrite (Add_None _ _ Hok), deref_List_insert. by rewrite <-(assoc_L (++)).
Qed.

Lemma Reachable_AddAll pm rs : Reachable pm → Reachable (AddAll pm rs).
Proof.
  revert pm. induction rs as [|r rs IH]; intros pm Hpm; [done|].
  apply IH. by constructor.
Qed.

(** ** Registration *)

Lemma IsDAG_no_walks pm :
  (∀ p q, p ∈ List pm → q ∈ List pm → (addr q).1 ∉ InputTypes (deref p)) →
  IsDAG pm = true.
Proof.
  intros Hnone. apply IsDAG_walks. intros q Hq.
  pose proof (tc_walks_List _ _ _ Hq) as Hin.
  assert (∃ y, walks pm q y) as (y & [Hy Hyin]%walks_iff).
  { inversion Hq; eauto. }
  by apply (Hnone q y).
Qed.

Lemma IsDAG_single_bucket t rs :
  (∀ r, r ∈ rs → t ∉ InputTypes r) → IsDAG ({[ t := rs ]} : gmap rtype (list Resolver)) = true.
Proof.
  intros Hrs. apply IsDAG_no_walks.
  intros p q (rsp & Hp & Hip)%elem_of_List (rsq & Hq & _)%elem_of_List.
  apply lookup_singleton_Some in Hp as [_ <-].
  apply lookup_singleton_Some in Hq as [<- _].
  by apply Hrs, list_elem_of_lookup_2 with (addr p).2.
Qed.

Lemma Add_conflict_iff pm r :
  (Add pm r).2 = Some ErrResolverConflict
  ↔ Validate r = None ∧ ∃ r', r' ∈ pm !!! OutputType r ∧ ftype r' = ftype r.
Proof.
  rewrite Add_unfold. destruct (Validate r); [naive_solver|].
  destruct (existsb _ _) eqn:Hex.
  - split; [|done]. intros _. split; [done|].
    apply existsb_exists in Hex as (r' & Hr'%list_elem_of_In & Heq%bool_decide_eq_true).
    eauto.
  - split; [by destruct (IsDAG _)|]. intros [_ (r' & Hr' & Heq)].
    assert (existsb (λ resolver, bool_decide (ftype r = ftype resolver))
                    (pm !!! OutputType r) = true) as Htrue; [|congruence].
    apply existsb_exists. exists r'. split; [by apply list_elem_of_In|].
    by apply bool_decide_eq_true.
Qed.

(** C1, as the code has it.  [Add] reports a conflict exactly when a
    resolver of the same function type (the same input types in the same
    order, the same outputs) is already filed under the output type,
    whether or not it wraps the same function.  Two valid resolvers with
    the same output type and different function types, neither of which
    takes that output type as an input, are both accepted, one after the
    other, and end up in one bucket. *)
Theorem Add_conflict_by_function_type :
  (∀ pm r,
     (Add pm r).2 = Some ErrResolverConflict
     ↔ Validate r = None ∧ ∃ r', r' ∈ pm !!! OutputType r ∧ ftype r' = ftype r)
  ∧ (∀ r1 r2,
       Validate r1 = None → Validate r2 = None →
       OutputType r1 = OutputType r2 → ftype r1 ≠ ftype r2 →
       OutputType r1 ∉ InputTypes r1 → OutputType r2 ∉ InputTypes r2 →
       Add ∅ r1 = ({[ OutputType r1 := [r1] ]}, None)
       ∧ Add {[ OutputType r1 := [r1] ]} r2 = ({[ OutputType r1 := [r1; r2] ]}, None)).
Proof.
  split; [apply Add_conflict_iff|].
  intros r1 r2 Hv1 Hv2 Hout Hty Hin1 Hin2. split.
  - rewrite Add_unfold, Hv1, lookup_total_empty. cbn [existsb app].
    rewrite insert_empty, IsDAG_single_bucket; [done|].
    by intros r ->%list_elem_of_singleton.
  - rewrite Add_unfold, Hv2, <-Hout, lookup_total_singleton_eq. cbn [existsb app].
    rewrite bool_decide_false by congruence. cbn [orb].
    rewrite insert_singleton_eq, IsDAG_single_bucket; [done|].
    intros r [->|Hr%list_elem_of_singleton]%elem_of_cons; [done|]. subst r.
    by rewrite Hout.
Qed.

(** C1, as stated, fails: [newUser] and [findUser] are different functions
    (they do not even compute the same) with the same output type, and the
    second is turned away as a conflict because their types agree. *)
Lemma Add_rejects_another_function_of_same_type :
  fname Fixtures.newUser ≠ fname Fixtures.findUser
  ∧ fcall Fixtures.newUser [] ≠ fcall Fixtures.findUser []
  ∧ OutputType Fixtures.newUser = OutputType Fixtures.findUser
  ∧ (Add ∅ Fixtures.newUser).2 = None
  ∧ (Add (Add ∅ Fixtures.newUser).1 Fixtures.findUser).2 = Some ErrResolverConflict.
Proof. split_and!; [done|done|done|by vm_compute|by vm_compute]. Qed.

Lemma Add_conflict_by_function_type_witness :
  Add ∅ Fixtures.newUser = ({[ Fixtures.tUserPtr := [Fixtures.newUser] ]}, None)
  ∧ Add {[ Fixtures.tUserPtr := [Fixtures.newUser] ]} Fixtures.userOfInt
    = ({[ Fixtures.tUserPtr := [Fixtures.newUser; Fixtures.userOfInt] ]}, None).
Proof.
  apply (proj2 Add_conflict_by_function_type Fixtures.newUser Fixtures.userOfInt);
    [reflexivity | reflexivity | reflexivity | discriminate
    | apply (bool_decide_unpack _); vm_compute; exact I
    | apply (bool_decide_unpack _); vm_compute; exact I].
Defined.

(** C3.  On a registry built with [Add] from the empty one, a failed [Add]
    leaves the registry exactly as it was, for each of its three errors:
    an invalid resolver, a conflict, and a circular dependency, after
    which the entry just appended is cut off again and the bucket is
    deleted when nothing else is in it. *)
Theorem Add_atomic (pm : ProductionMap) (r : Resolver) (e : error) :
  Reachable pm → (Add pm r).2 = Some e →
  (Add pm r).1 = pm
  ∧ ((∃ cause, Validate r = Some cause ∧ e = ErrFailedToAdd cause)
     ∨ e = ErrResolverConflict
     ∨ (e = ErrCircularDependencies
        ∧ IsDAG (<[OutputType r := (pm !!! OutputType r) ++ [r]]> pm) = false)).
Proof.
  intros Hreach He. split.
  - apply Add_failed_unchanged; [|by rewrite He].
    intros t Ht. by destruct (Reachable_WellFormed _ Hreach _ _ Ht).
  - revert He. rewrite Add_unfold. destruct (Validate r) as [cause|].
    { intros ?. simplify_eq/=. left. by exists cause. }
    destruct (existsb _ _); [intros ?; simplify_eq/=; by right; left|].
    destruct (IsDAG _); [done|]. intros ?. simplify_eq/=. by right; right.
Qed.

Lemma Add_atomic_witness :
  (Add (Add ∅ Fixtures.g).1 Fixtures.h).1 = (Add ∅ Fixtures.g).1
  ∧ (Add ∅ Fixtures.selfUser).1 = ∅.
Proof.
  split.
  - apply (Add_atomic (Add ∅ Fixtures.g).1 Fixtures.h ErrCircularDependencies);
      [apply Reachable_Add, Reachable_empty | by vm_compute].
  - apply (Add_atomic ∅ Fixtures.selfUser ErrCircularDependencies);
      [apply Reachable_empty | by vm_compute].
Defined.

(** ** Cycle detection *)

(** C2.  [IsDAG] always comes to an answer, and on a registry whose
    resolvers are filed under their output types (every registry built
    with [Add], and every registry [Add] tests after its tentative
    insertion) the answer is [true] exactly when the graph with an edge
    from each input type of a resolver to its output type has no cycle.
    In the diamond, the walk from [combine] comes to [parse] along two
    sibling branches, through [widen] and through [narrow]; each branch
    has its own copy of the visited set, and no cycle is reported. *)
Theorem IsDAG_exact :
  (∀ pm, ∃ b, IsDAG_fuel (S (length (List pm))) pm = Some b ∧ IsDAG pm = b)
  ∧ (∀ pm, WellFormed pm → IsDAG pm = true ↔ Acyclic pm)
  ∧ (∀ pm, Reachable pm → WellFormed pm)
  ∧ (∀ pm r, WellFormed pm → Validate r = None →
       WellFormed (<[OutputType r := (pm !!! OutputType r) ++ [r]]> pm))
  ∧ (let top := MkPtr (Fixtures.tUserPtr, 0) Fixtures.combine in
     let left := MkPtr (Fixtures.tFloat64, 0) Fixtures.widen in
     let right := MkPtr (Fixtures.tByte, 0) Fixtures.narrow in
     let bottom := MkPtr (Fixtures.tInt, 0) Fixtures.parse in
     successors Fixtures.diamond top = [left; right]
     ∧ successors Fixtures.diamond left = [bottom]
     ∧ successors Fixtures.diamond right = [bottom]
     ∧ IsDAG Fixtures.diamond = true
     ∧ Acyclic Fixtures.diamond).
Proof.
  split_and!.
  - intros pm. destruct (IsDAG_fuel_total pm) as (b & Hb & _).
    exists b. split; [done|]. unfold IsDAG. by rewrite Hb.
  - apply IsDAG_Acyclic.
  - apply Reachable_WellFormed.
  - intros pm r Hwf Hval t rs. destruct (decide (t = OutputType r)) as [->|Hne].
    + rewrite lookup_insert_eq. intros ?. simplify_eq.
      split; [by destruct (pm !!! OutputType r)|].
      intros r' [Hr'|Hr'%list_elem_of_singleton]%elem_of_app; [|by subst].
      rewrite lookup_total_alt in Hr'.
      destruct (pm !! OutputType r) as [rs|] eqn:Hrs; [|by apply elem_of_nil in Hr'].
      by apply (Hwf _ _ Hrs).
    + rewrite lookup_insert_ne by done. apply Hwf.
  - cbv zeta. split_and!; [by vm_compute..|].
    apply IsDAG_Acyclic; [|by vm_compute].
    apply Reachable_WellFormed, Reachable_AddAll, Reachable_empty.
Qed.

Lemma IsDAG_exact_witness :
  IsDAG (Add ∅ Fixtures.g).1 = true ↔ Acyclic (Add ∅ Fixtures.g).1.
Proof.
  apply (proj1 (proj2 IsDAG_exact)).
  apply (proj1 (proj2 (proj2 IsDAG_exact))), Reachable_Add, Reachable_empty.
Defined.

(** ** Possibility trees *)

Lemma possibilityCount_intro pm inputs n :
  Count <$> PossibilityTree pm inputs = Some n → possibilityCount pm inputs n.
Proof.
  intros Hn. split; [done|]. intros root Hroot.
  destruct (PossibilityTree pm inputs) as [root0|] eqn:Hroot0; [|done].
  simplify_eq/=. apply (Built_Count pm pm inputs); [done..|].
  by apply PossibilityTree_Built.
Qed.

(** C5.  The scenario of [TestPossibilityTreeBuildAxe]: the four
    registrations succeed, and the tree built from Boulder and Tree counts
    2 nodes after the first, 5 after the second, 7 after the third and 13
    after the fourth, in whatever order the registry is visited. *)
Theorem axe_possibility_counts :
  AllAdded ∅ Fixtures.axeResolvers
  ∧ possibilityCount (Fixtures.axeRegistry 1) [Fixtures.Boulder; Fixtures.Tree] 2
  ∧ possibilityCount (Fixtures.axeRegistry 2) [Fixtures.Boulder; Fixtures.Tree] 5
  ∧ possibilityCount (Fixtures.axeRegistry 3) [Fixtures.Boulder; Fixtures.Tree] 7
  ∧ possibilityCount (Fixtures.axeRegistry 4) [Fixtures.Boulder; Fixtures.Tree] 13.
Proof.
  split_and!; [by vm_compute|apply possibilityCount_intro; by vm_compute..].
Qed.

(** C9.  The count of the tree built from given types depends on which
    resolvers the registry holds and on nothing else: two registries with
    the same resolvers, however filed and visited, give trees of the same
    count; in particular two orders of registering the same resolvers,
    each registering them all. *)
Theorem Count_order_invariant :
  (∀ pm1 pm2 inputs root1 root2,
     deref <$> List pm1 ≡ₚ deref <$> List pm2 →
     Built pm1 inputs root1 → Built pm2 inputs root2 →
     Count root1 = Count root2)
  ∧ (∀ rs1 rs2 inputs,
       rs1 ≡ₚ rs2 → AllAdded ∅ rs1 → AllAdded ∅ rs2 →
       ∃ n, possibilityCount (AddAll ∅ rs1) inputs n
            ∧ possibilityCount (AddAll ∅ rs2) inputs n).
Proof.
  split; [apply Built_Count|].
  intros rs1 rs2 inputs Hperm H1 H2.
  destruct (PossibilityTree_total (AddAll ∅ rs1) inputs) as [root1 Hroot1].
  destruct (PossibilityTree_total (AddAll ∅ rs2) inputs) as [root2 Hroot2].
  exists (Count root1). split.
  - apply possibilityCount_intro. by rewrite Hroot1.
  - apply possibilityCount_intro. rewrite Hroot2. cbn. f_equal.
    apply (Built_Count (AddAll ∅ rs2) (AddAll ∅ rs1) inputs);
      [|by apply PossibilityTree_Built..].
    rewrite !AllAdded_List by done. by rewrite Hperm.
Qed.

Lemma Count_order_invariant_witness :
  ∃ n, possibilityCount (AddAll ∅ [Fixtures.chiselStone; Fixtures.pickupStick])
                        [Fixtures.Boulder; Fixtures.Tree] n
       ∧ possibilityCount (AddAll ∅ [Fixtures.pickupStick; Fixtures.chiselStone])
                          [Fixtures.Boulder; Fixtures.Tree] n.
Proof.
  apply (proj2 Count_order_invariant).
  - apply perm_swap.
  - vm_compute. auto.
  - vm_compute. auto.
Defined.

(** C7.  The builder terminates for every registry and for every types
    to start from.  Every next step applies a resolver whose output type,
    one of the registered output types, was not yet available, so the
    available types grow along every chain and no chain of applications is
    longer than the number of distinct registered output types.  That
    number is reached: for a registry built with [Add], once the types no
    resolver produces are available the depth of the tree is the number of
    registered output types still unavailable, which from those types
    alone is all of them. *)
Theorem builder_terminates (pm : ProductionMap) :
  (∀ inputs, ∃ root, PossibilityTree pm inputs = Some root ∧ Built pm inputs root)
  ∧ (∀ inputs root, Built pm inputs root →
       depth root ≤ size (outputTypes pm)
       ∧ ∀ avail n c, (avail, n) ∈ states inputs root → c ∈ NextSteps n →
           ∃ p, nodeResolver c = Some p ∧ (OutputType (deref p) ∉ avail)
                ∧ OutputType (deref p) ∈ outputTypes pm)
  ∧ (Reachable pm →
       (∀ inputs root, sourceTypes pm ⊆ inputs → Built pm inputs root →
          depth root = size (outputTypes pm ∖ list_to_set inputs))
       ∧ ∀ root, Built pm (sourceTypes pm) root → depth root = size (outputTypes pm)).
Proof.
  split_and!.
  - intros inputs. destruct (PossibilityTree_total pm inputs) as [root Hroot].
    exists root. split; [done|]. by apply PossibilityTree_Built.
  - intros inputs root (steps & -> & Hb). split.
    + etrans; [by apply Builds_depth_le|].
      apply subseteq_size. set_solver.
    + intros avail n c Hn Hc.
      pose proof (states_Builds _ _ _ Hb _ _ Hn) as Hbn.
      destruct (Builds_next_steps _ _ _ Hbn) as [_ Hsteps].
      destruct (Hsteps c Hc) as (p & Hp & [Hout _] & Hres & _).
      exists p. split_and!; [done..|]. by apply elem_of_outputTypes.
  - intros Hreach.
    assert (∀ inputs root, sourceTypes pm ⊆ inputs → Built pm inputs root →
              depth root = unproduced pm inputs) as Hdepth.
    { intros inputs root Hsrc (steps & -> & Hb).
      apply (Builds_depth_eq pm (sourceTypes pm)); [|done..].
      intros avail Havail Hmissing. apply Acyclic_progress; [|done..].
      apply IsDAG_Acyclic; [by apply Reachable_WellFormed | by apply Reachable_IsDAG]. }
    split; [done|]. intros root Hroot.
    rewrite <-unproduced_sourceTypes. by apply Hdepth.
Qed.

Lemma builder_terminates_witness :
  depth <$> PossibilityTree (Fixtures.axeRegistry 4) (sourceTypes (Fixtures.axeRegistry 4))
  = Some (size (outputTypes (Fixtures.axeRegistry 4))).
Proof.
  destruct (PossibilityTree_total (Fixtures.axeRegistry 4)
              (sourceTypes (Fixtures.axeRegistry 4))) as [root Hroot].
  rewrite Hroot. cbn. f_equal.
  apply (proj2 (proj2 (builder_terminates (Fixtures.axeRegistry 4)))).
  - apply Reachable_AddAll, Reachable_empty.
  - by apply PossibilityTree_Built.
Defined.

Lemma builder_next_steps_witness :
  ∃ root, PossibilityTree (Fixtures.axeRegistry 2) [Fixtures.Boulder; Fixtures.Tree] = Some root
    ∧ nodeResolver <$> NextSteps root
        ≡ₚ Some <$> filter (λ p, eligible [Fixtures.Boulder; Fixtures.Tree] (deref p))
                           (List (Fixtures.axeRegistry 2)).
Proof.
  destruct (PossibilityTree_total (Fixtures.axeRegistry 2) [Fixtures.Boulder; Fixtures.Tree])
    as [root Hroot].
  exists root. split; [done|].
  apply (builder_next_steps (Fixtures.axeRegistry 2) [Fixtures.Boulder; Fixtures.Tree] root).
  - by left.
  - destruct root. left.
Defined.

Lemma PruneFor_exact_witness :
  (PruneFor (Node None [] []) Fixtures.Axe).2
  = Some (ErrBranchCouldNotDerive Fixtures.Axe).
Proof.
  apply (proj1 (PruneFor_exact (Node None [] []) Fixtures.Axe)).
  intros (n & Hn & Hprod). apply list_elem_of_singleton in Hn as ->. done.
Defined.

Lemma PruneFor_available_target_unreachable_witness :
  ∃ root,
    PossibilityTree (Fixtures.axeRegistry 4) [Fixtures.Boulder; Fixtures.Tree] = Some root
    ∧ (PruneFor root Fixtures.Boulder).2 = Some (ErrBranchCouldNotDerive Fixtures.Boulder)
    ∧ NextSteps (PruneFor root Fixtures.Boulder).1 = [].
Proof.
  destruct (PruneFor_available_target_unreachable (Fixtures.axeRegistry 4)
              [Fixtures.Boulder; Fixtures.Tree] Fixtures.Boulder) as [[root Hroot] Hfail].
  { left. }
  exists root. split; [done|]. by apply Hfail, PossibilityTree_Built.
Defined.

Lemma Resolve_reports_witness :
  Resolve Fixtures.stringToUser [Fixtures.TestUserID]
  = Returned (None, Some (ErrExpectedInputs 3 1))
  ∧ Resolve Fixtures.refuse [MkValue Fixtures.tString false 0]
    = Returned (Some (MkValue Fixtures.tUserPtr true 0),
                Some (ErrValue (MkValue errorInterface false 7))).
Proof.
  split.
  - apply (proj1 (Resolve_reports Fixtures.stringToUser
             [Fixtures.tID; Fixtures.tEmail; Fixtures.tPasswordHash]
             [Fixtures.tUserPtr; errorInterface] [Fixtures.TestUserID] eq_refl)).
    simpl; lia.
  - apply (proj2 (proj2 (proj2 (Resolve_reports Fixtures.refuse [Fixtures.tString]
             [Fixtures.tUserPtr; errorInterface] [MkValue Fixtures.tString false 0]
             eq_refl)) eq_refl _ _ eq_refl)); reflexivity.
Defined.

(** ** The test suite, replayed on the model *)

Section tests.
Import Fixtures.

(** [TestResolveUser], [TestResolveMismatchedInputTypes],
    [TestResolveTooFewInputs], [TestResolveTooManyInputs]. *)
Example TestResolveUser :
  Resolve stringToUser [TestUserID; TestUserEmail; TestUserPasswordHash]
  = Returned (Some (MkValue tUserPtr false 1337), None).
Proof. reflexivity. Qed.

Example TestResolveMismatchedInputTypes :
  Resolve stringToUser [TestUserID; TestUserEmail; MkValue tInt false 4444]
  = Returned (None, Some (ErrArgumentType tPasswordHash tInt)).
Proof. reflexivity. Qed.

Example TestResolveTooFewInputs :
  Resolve stringToUser [TestUserID]
  = Returned (None, Some (ErrExpectedInputs 3 1)).
Proof. reflexivity. Qed.

Example TestResolveTooManyInputs :
  Resolve stringToUser [TestUserID; TestUserEmail; TestUserPasswordHash; TestUserID]
  = Returned (None, Some (ErrExpectedInputs 3 4)).
Proof. reflexivity. Qed.

(** [Resolve] takes the values in the order given, where [FitInputs]
    searches for them. *)
Example Resolve_is_positional :
  Resolve stringToUser [TestUserEmail; TestUserID; TestUserPasswordHash]
  = Returned (None, Some (ErrArgumentType tID tEmail))
  ∧ FitInputs stringToUser [TestUserEmail; TestUserID; TestUserPasswordHash]
    = ([TestUserID; TestUserEmail; TestUserPasswordHash], None).
Proof. split; reflexivity. Qed.

(** [TestValidateResolvers]. *)
Example TestValidateResolvers :
  Validate (fn "good" [tString] tUserPtr (λ _, 0%Z)) = None
  ∧ Validate (MkResolver "noErrorOutput" (FuncOf [tString] [tUserPtr; tString]) (λ _, []))
    = Some ErrSecondOutputNotError
  ∧ Validate (MkResolver "tooFewOutputs" (FuncOf [tString] [tUserPtr]) (λ _, []))
    = Some (ErrExpectedOutputs 2 1)
  ∧ Validate (MkResolver "tooManyOutputs"
                (FuncOf [tString] [tUserPtr; errorInterface; tString]) (λ _, []))
    = Some (ErrExpectedOutputs 2 3)
  ∧ Validate (MkResolver "noInputs" (FuncOf [] [tUserPtr; errorInterface]) (λ _, []))
    = Some ErrNoInputs.
Proof. split_and!; reflexivity. Qed.

(** [TestProductionMapDuplicate]. *)
Example TestProductionMapDuplicate :
  (Add ∅ newUser).2 = None
  ∧ Add (Add ∅ newUser).1 newUser = ((Add ∅ newUser).1, Some ErrResolverConflict).
Proof. split; by vm_compute. Qed.

(** [TestProductionMapOneNodeCycle]: the registry is empty afterwards. *)
Example TestProductionMapOneNodeCycle :
  Add ∅ selfUser = (∅, Some ErrCircularDependencies).
Proof. by vm_compute. Qed.

(** [TestProductionMapTwoNodeCycle], [TestProductionMapThreeNodeCycle],
    [TestProductionMapThreeNodeNoCycle]. *)
Example TestProductionMapTwoNodeCycle :
  (Add ∅ g).2 = None ∧ (Add (AddAll ∅ [g]) h).2 = Some ErrCircularDependencies.
Proof. split; by vm_compute. Qed.

Example TestProductionMapThreeNodeCycle :
  AllAdded ∅ [g; h'] ∧ (Add (AddAll ∅ [g; h']) i).2 = Some ErrCircularDependencies.
Proof. split; by vm_compute. Qed.

Example TestProductionMapThreeNodeNoCycle : AllAdded ∅ [g; h'; i'].
Proof. by vm_compute. Qed.

(** A tree on an empty registry is its root. *)
Example empty_registry_tree inputs : PossibilityTree ∅ inputs = Some (Node None [] []).
Proof. reflexivity. Qed.

(** Pruning the tree of the axe scenario for [Axe] and for a type
    nothing produces. *)
Example prune_axe_tree :
  (λ root, ((PruneFor root Axe).2, Count (PruneFor root Axe).1))
    <$> PossibilityTree (axeRegistry 4) [Boulder; Tree] = Some (None, 11)
  ∧ (λ root, (PruneFor root tInt).2)
      <$> PossibilityTree (axeRegistry 4) [Boulder; Tree]
    = Some (Some (ErrBranchCouldNotDerive tInt)).
Proof. split; by vm_compute. Qed.

(** A map literal with an empty slice under the output type is not a
    registry [Add] ever leaves behind; there the roll-back deletes the
    key. *)
Remark Add_rollback_on_empty_bucket :
  Add {[ tUserPtr := [] ]} selfUser = (∅, Some ErrCircularDependencies)
  ∧ ¬ Reachable {[ tUserPtr := [] ]}.
Proof.
  split; [by vm_compute|]. intros Hreach.
  destruct (Reachable_WellFormed _ Hreach tUserPtr []) as [Hne _]; [|done].
  apply lookup_singleton_eq.
Qed.
End tests.

(** * Further properties of the package *)

(** ** Validate *)

Lemma duplicateArgument_false (seen : gset rtype) (ins : list rtype) :
  duplicateArgument seen ins = false ↔ NoDup ins ∧ ∀ t, t ∈ ins → t ∉ seen.
Proof.
  revert seen. induction ins as [|v ins IH]; intros seen; simpl.
  { split; [|done]. intros _. split; [constructor|]. by intros t ?%elem_of_nil. }
  destruct (decide (v ∈ seen)) as [Hin|Hout].
  - split; [done|]. intros [_ Hseen]. destruct (Hseen v); [left | done].
  - rewrite IH, NoDup_cons. split.
    + intros [Hnd Hseen]. split_and!; [|done|].
      * intros Hv. apply (Hseen v Hv). set_solver.
      * intros t [->|Ht]%elem_of_cons; [done|]. specialize (Hseen t Ht). set_solver.
    + intros [[Hv Hnd] Hseen]. split; [done|]. intros t Ht.
      assert (t ≠ v) by (by intros ->).
      specialize (Hseen t ltac:(by right)). set_solver.
Qed.

(** X1.  [Validate] accepts exactly the functions with at least one
    input, pairwise different input types, and two outputs the second of
    which implements [error]. *)
Theorem Validate_accepts (r : Resolver) :
  Validate r = None
  ↔ ∃ ins o e, ftype r = FuncOf ins [o; e] ∧ ins ≠ [] ∧ NoDup ins
               ∧ Implements_error e = true.
Proof.
  unfold Validate, InputTypes. destruct (ftype r) as [t|ins outs].
  { split; [done|]. by intros (? & ? & ? & ? & _). }
  split.
  - case_decide as Hlen; [done|].
    destruct (duplicateArgument ∅ ins) eqn:Hdup; [done|].
    case_decide as Houts; [done|].
    destruct outs as [|o [|e [|? ?]]]; simplify_eq/=.
    destruct (Implements_error e) eqn:He; [|done]. intros _.
    apply duplicateArgument_false in Hdup as [Hnd _].
    exists ins, o, e. split_and!; [done| |done|done].
    by intros ->.
  - intros (ins' & o & e & Heq & Hne & Hnd & He). simplify_eq.
    rewrite decide_False by (by destruct ins').
    rewrite (proj2 (duplicateArgument_false ∅ ins')) by (split; [done | set_solver]).
    rewrite decide_False by (simpl; lia). simpl. by rewrite He.
Qed.

Lemma Validate_accepts_witness : Validate Fixtures.assembleAxe = None.
Proof.
  apply (proj2 (Validate_accepts Fixtures.assembleAxe)).
  exists [Fixtures.Stick; Fixtures.Stone], Fixtures.Axe, errorInterface.
  split_and!; [reflexivity | discriminate | | reflexivity].
  apply (bool_decide_unpack _). vm_compute. exact I.
Defined.

(** ** MissingInputs and FitInputs *)

Lemma elem_of_MissingInputs r have t :
  t ∈ MissingInputs r have ↔ t ∈ InputTypes r ∧ t ∉ have.
Proof. unfold MissingInputs. rewrite list_elem_of_filter. tauto. Qed.

(** X2.  [MissingInputs] returns the input types that are not in [have],
    in the order of the inputs; supplying what it returns leaves nothing
    missing, and supplying more never makes more missing. *)
Theorem MissingInputs_complete (r : Resolver) (have : list rtype) :
  (∀ t, t ∈ MissingInputs r have ↔ t ∈ InputTypes r ∧ t ∉ have)
  ∧ sublist (MissingInputs r have) (InputTypes r)
  ∧ MissingInputs r (have ++ MissingInputs r have) = []
  ∧ ∀ more, sublist (MissingInputs r (have ++ more)) (MissingInputs r have).
Proof.
  split_and!.
  - apply elem_of_MissingInputs.
  - apply sublist_filter.
  - apply MissingInputs_nil. intros t Ht.
    destruct (decide (t ∈ have)); [set_solver|].
    apply elem_of_app. right. by apply elem_of_MissingInputs.
  - intros more. unfold MissingInputs.
    induction (InputTypes r) as [|t ins IH]; [done|].
    rewrite !filter_cons.
    destruct (decide (t ∉ have ++ more)) as [Hn|Hy].
    + rewrite decide_True by set_solver. by constructor.
    + destruct (decide (t ∉ have)); [by constructor | done].
Qed.

Lemma fitLoop_found wanted have acc :
  (∀ t, t ∈ wanted → t ∈ vType <$> have) →
  ∃ found, fitLoop wanted have acc = (acc ++ found, None)
    ∧ Forall2 (λ t v, ∃ k, have !! k = Some v ∧ vType v = t
                 ∧ ∀ j w, have !! j = Some w → j < k → vType w ≠ t)
              wanted found.
Proof.
  revert acc. induction wanted as [|t wanted IH]; intros acc Hall; simpl.
  { exists []. by rewrite (right_id_L [] (++)). }
  destruct (list_find (λ value, vType value = t) have) as [[k v]|] eqn:Hfind.
  - apply list_find_Some in Hfind as (Hk & Hv & Hfirst).
    destruct (IH (acc ++ [v])) as (found & -> & Hfound).
    { intros t' Ht'. apply Hall. by right. }
    exists (v :: found). split; [by rewrite <-(assoc_L (++))|].
    constructor; [|done]. exists k. split_and!; [done..|]. intros j w Hj Hlt. by eapply Hfirst.
  - apply list_find_None in Hfind.
    pose proof (Hall t ltac:(left)) as Hin.
    apply list_elem_of_fmap in Hin as (v & Hv & Hin).
    rewrite Forall_forall in Hfind. by destruct (Hfind v Hin).
Qed.

Lemma fitLoop_missing wanted have acc t :
  head (filter (λ t, t ∉ vType <$> have) wanted) = Some t →
  fitLoop wanted have acc = ([], Some (ErrCouldNotFind t)).
Proof.
  revert acc. induction wanted as [|w wanted IH]; intros acc; simpl; [done|].
  rewrite filter_cons. destruct (decide (w ∉ vType <$> have)) as [Hout|Hin].
  - simpl. intros ?. simplify_eq.
    destruct (list_find (λ value, vType value = t) have) as [[k v]|] eqn:Hfind; [|done].
    apply list_find_Some in Hfind as (Hk & Hv & _). destruct Hout.
    apply list_elem_of_fmap. exists v. split; [done|]. by eapply list_elem_of_lookup_2.
  - apply dec_stable in Hin. intros Hhead.
    destruct (list_find (λ value, vType value = w) have) as [[k v]|] eqn:Hfind.
    + by apply IH.
    + apply list_find_None in Hfind.
      apply list_elem_of_fmap in Hin as (v & Hv & Hin).
      rewrite Forall_forall in Hfind. by destruct (Hfind v Hin).
Qed.

(** X3.  [FitInputs] succeeds exactly when no input type is missing among
    the types of the values it is given.  It then returns one value per
    input, in the order of the inputs, each the first value of that type
    among those given; what it is given is not used up, so one value can
    fill the input of several resolvers. *)
Theorem FitInputs_finds (r : Resolver) (have : list Value) :
  ((FitInputs r have).2 = None ↔ MissingInputs r (vType <$> have) = [])
  ∧ ((FitInputs r have).2 = None →
       vType <$> (FitInputs r have).1 = InputTypes r
       ∧ Forall2 (λ t v, ∃ k, have !! k = Some v ∧ vType v = t
                    ∧ ∀ j w, have !! j = Some w → j < k → vType w ≠ t)
                 (InputTypes r) (FitInputs r have).1).
Proof.
  unfold FitInputs.
  destruct (head (MissingInputs r (vType <$> have))) as [t|] eqn:Hhead.
  - unfold MissingInputs in Hhead. rewrite (fitLoop_missing _ _ _ _ Hhead). simpl.
    split; [|done]. split; [done|]. unfold MissingInputs. intros Hnil.
    by rewrite Hnil in Hhead.
  - apply head_None in Hhead.
    destruct (fitLoop_found (InputTypes r) have []) as (found & -> & Hfound).
    { by apply MissingInputs_nil. }
    simpl. split; [done|]. intros _. split; [|done].
    clear Hhead. induction Hfound as [|t v ins found (k & _ & Hv & _) _ IH]; [done|].
    rewrite fmap_cons. by rewrite Hv, IH.
Qed.

Lemma FitInputs_finds_witness :
  vType <$> (FitInputs Fixtures.assembleAxe
               [MkValue Fixtures.Stone false 50; MkValue Fixtures.Stick false 100;
                MkValue Fixtures.Stick false 7]).1
  = InputTypes Fixtures.assembleAxe.
Proof.
  apply (proj2 (FitInputs_finds Fixtures.assembleAxe
     [MkValue Fixtures.Stone false 50; MkValue Fixtures.Stick false 100;
      MkValue Fixtures.Stick false 7]) eq_refl).
Defined.

(** X4.  When an input type is missing, [FitInputs] returns no values and
    an error that names the first missing input type. *)
Theorem FitInputs_names_first_missing (r : Resolver) (have : list Value) (e : error) :
  (FitInputs r have).2 = Some e →
  (FitInputs r have).1 = []
  ∧ ∃ t, e = ErrCouldNotFind t ∧ head (MissingInputs r (vType <$> have)) = Some t.
Proof.
  unfold FitInputs.
  destruct (head (MissingInputs r (vType <$> have))) as [t|] eqn:Hhead.
  - unfold MissingInputs in Hhead. rewrite (fitLoop_missing _ _ _ _ Hhead). simpl.
    intros ?. simplify_eq. eauto.
  - apply head_None in Hhead.
    destruct (fitLoop_found (InputTypes r) have []) as (found & -> & _); [|done].
    by apply MissingInputs_nil.
Qed.

Lemma FitInputs_names_first_missing_witness :
  (FitInputs Fixtures.assembleAxe [MkValue Fixtures.Boulder false 500]).1 = []
  ∧ ∃ t, ErrCouldNotFind Fixtures.Stick = ErrCouldNotFind t
       ∧ head (MissingInputs Fixtures.assembleAxe
                 (vType <$> [MkValue Fixtures.Boulder false 500])) = Some t.
Proof.
  apply (FitInputs_names_first_missing Fixtures.assembleAxe
           [MkValue Fixtures.Boulder false 500] (ErrCouldNotFind Fixtures.Stick)).
  reflexivity.
Defined.

(** ** Resolve *)



(** X6.  What [FitInputs] returns fits [Resolve]: on the values fitted for
    a function, [Resolve] finds neither the count nor a type wrong and
    makes the call; when the call returns a value of the output type and
    an [error], that value is the result. *)
Theorem FitInputs_then_Resolve (r : Resolver) (have : list Value) :
  (∃ ins outs, ftype r = FuncOf ins outs) →
  (FitInputs r have).2 = None →
  (∀ res, Resolve r (FitInputs r have).1 = Returned res →
     (∀ want got, res.2 ≠ Some (ErrExpectedInputs want got))
     ∧ (∀ want got, res.2 ≠ Some (ErrArgumentType want got)))
  ∧ ∀ ov ev, fcall r (FitInputs r have).1 = [ov; ev] →
      vType ov = OutputType r → Implements_error (vType ev) = true →
      Resolve r (FitInputs r have).1
      = Returned (Some ov, if vIsNil ev then None else Some (ErrValue ev)).
Proof.
  intros (ins & outs & Hty) Hfit.
  assert (vType <$> (FitInputs r have).1 = ins) as Htypes.
  { unfold FitInputs in *. destruct (head (MissingInputs r (vType <$> have))) as [t|] eqn:Hhead.
    - unfold MissingInputs in Hhead. by rewrite (fitLoop_missing _ _ _ _ Hhead) in Hfit.
    - apply head_None in Hhead.
      destruct (fitLoop_found (InputTypes r) have []) as (found & -> & Hfound).
      { by apply MissingInputs_nil. }
      simpl. unfold InputTypes in Hfound. rewrite Hty in Hfound. clear -Hfound.
      induction Hfound as [|t v ins found (k & _ & Hv & _) _ IH]; [done|].
      rewrite fmap_cons. by rewrite Hv, IH. }
  clear Hfit. revert Htypes. generalize (FitInputs r have).1. intros inputs Htypes.
  assert (length ins = length inputs) as Hlen by (by rewrite <-Htypes, length_fmap).
  unfold Resolve. rewrite Hty, decide_False by (intros ?; congruence).
  rewrite (proj2 (firstTypeMismatch_None ins inputs Hlen) Htypes). cbv zeta. split.
  - intros res.
    case_decide; [intros ?; by simplify_eq/=|].
    destruct (fcall r inputs) as [|ov [|ev [|? ?]]]; simplify_eq/=.
    repeat case_decide; repeat (destruct (Implements_error _)); simpl;
      try destruct (vIsNil ev); intros ?; by simplify_eq/=.
  - intros ov ev Hcall Hov Hev. rewrite Hcall. simpl.
    rewrite decide_False by (intros ?; congruence). rewrite Hev. simpl.
    by destruct (vIsNil ev).
Qed.

Lemma FitInputs_then_Resolve_witness :
  Resolve Fixtures.assembleAxe
    (FitInputs Fixtures.assembleAxe
       [MkValue Fixtures.Stone false 50; MkValue Fixtures.Stick false 100]).1
  = Returned (Some (MkValue Fixtures.Axe false 150), None).
Proof.
  apply (proj2 (FitInputs_then_Resolve Fixtures.assembleAxe
           [MkValue Fixtures.Stone false 50; MkValue Fixtures.Stick false 100]
           (ex_intro _ _ (ex_intro _ _ eq_refl)) eq_refl)
         (MkValue Fixtures.Axe false 150) (MkValue errorInterface true 0));
    reflexivity.
Defined.

(** ** Add *)

Lemma elem_of_deref_List pm r :
  r ∈ deref <$> List pm ↔ ∃ t rs, pm !! t = Some rs ∧ r ∈ rs.
Proof.
  rewrite list_elem_of_fmap. split.
  - intros (p & -> & (rs & Hrs & Hi)%elem_of_List).
    exists (addr p).1, rs. split; [done|]. by eapply list_elem_of_lookup_2.
  - intros (t & rs & Hrs & [i Hi]%list_elem_of_lookup).
    exists (MkPtr (t, i) r). split; [done|]. apply elem_of_List. by exists rs.
Qed.

Lemma existsb_same_type_false r (rs : list Resolver) :
  existsb (λ resolver, bool_decide (ftype r = ftype resolver)) rs = false
  ↔ ∀ r', r' ∈ rs → ftype r' ≠ ftype r.
Proof.
  rewrite <-not_true_iff_false, existsb_exists. split.
  - intros Hnone r' Hr' Heq. apply Hnone. exists r'.
    split; [by apply list_elem_of_In|]. by apply bool_decide_eq_true.
  - intros Hall (r' & Hr'%list_elem_of_In & Heq%bool_decide_eq_true).
    by apply (Hall r' Hr').
Qed.

Lemma Add_None_iff pm r :
  (Add pm r).2 = None
  ↔ Validate r = None
    ∧ (∀ r', r' ∈ pm !!! OutputType r → ftype r' ≠ ftype r)
    ∧ IsDAG (<[OutputType r := (pm !!! OutputType r) ++ [r]]> pm) = true.
Proof.
  rewrite <-existsb_same_type_false, Add_unfold.
  destruct (Validate r); [naive_solver|].
  destruct (existsb _ _); [naive_solver|].
  destruct (IsDAG _); naive_solver.
Qed.

(** X7.  [Add] succeeds exactly when the resolver is valid, no resolver
    of the same function type is filed under its output type, and the
    registry with the resolver in it has no cycle.  It then appends the
    resolver to the bucket of its output type and touches no other
    bucket. *)
Theorem Add_accepts (pm : ProductionMap) (r : Resolver) :
  ((Add pm r).2 = None
   ↔ Validate r = None
     ∧ (∀ r', r' ∈ pm !!! OutputType r → ftype r' ≠ ftype r)
     ∧ IsDAG (<[OutputType r := (pm !!! OutputType r) ++ [r]]> pm) = true)
  ∧ ((Add pm r).2 = None →
       (Add pm r).1 !! OutputType r = Some ((pm !!! OutputType r) ++ [r])
       ∧ (∀ t, t ≠ OutputType r → (Add pm r).1 !! t = pm !! t)
       ∧ deref <$> List (Add pm r).1 ≡ₚ (deref <$> List pm) ++ [r]).
Proof.
  split; [apply Add_None_iff|]. intros Hok. rewrite (Add_None _ _ Hok). split_and!.
  - apply lookup_insert_eq.
  - intros t Ht. by apply lookup_insert_ne.
  - apply deref_List_insert.
Qed.

Lemma Add_accepts_witness :
  (Add (Add ∅ Fixtures.newUser).1 Fixtures.userOfInt).1 !! Fixtures.tUserPtr
  = Some ([Fixtures.newUser] ++ [Fixtures.userOfInt]).
Proof.
  refine (proj1 (proj2 (Add_accepts (Add ∅ Fixtures.newUser).1 Fixtures.userOfInt) _)).
  by vm_compute.
Defined.

Lemma Validate_ftype r r' : ftype r' = ftype r → Validate r' = Validate r.
Proof. unfold Validate, InputTypes. by intros ->. Qed.

Lemma OutputType_ftype r r' : ftype r' = ftype r → OutputType r' = OutputType r.
Proof. unfold OutputType. by intros ->. Qed.

Lemma InputTypes_ftype r r' : ftype r' = ftype r → InputTypes r' = InputTypes r.
Proof. unfold InputTypes. by intros ->. Qed.

(** X8.  Once a resolver is registered, registering it again, or any
    other function of the same type, is refused as a conflict and changes
    nothing. *)
Theorem Add_twice_conflicts (pm : ProductionMap) (r r' : Resolver) :
  (Add pm r).2 = None → ftype r' = ftype r →
  Add (Add pm r).1 r' = ((Add pm r).1, Some ErrResolverConflict).
Proof.
  intros Hok Hty.
  assert ((Add (Add pm r).1 r').2 = Some ErrResolverConflict) as Hconf.
  { apply Add_conflict_iff. split.
    - rewrite (Validate_ftype r r') by done. by apply Add_None_iff in Hok as [? _].
    - exists r. split; [|done]. rewrite (OutputType_ftype r r') by done.
      rewrite (Add_None _ _ Hok), lookup_total_insert_eq.
      apply elem_of_app. right. left. }
  revert Hconf. rewrite (Add_unfold (Add pm r).1 r').
  destruct (Validate r'); [done|]. destruct (existsb _ _); [done|].
  by destruct (IsDAG _).
Qed.

Lemma Add_twice_conflicts_witness :
  Add (Add ∅ Fixtures.newUser).1 Fixtures.findUser
  = ((Add ∅ Fixtures.newUser).1, Some ErrResolverConflict).
Proof.
  apply (Add_twice_conflicts ∅ Fixtures.newUser Fixtures.findUser); reflexivity.
Defined.

(** X9.  A resolver that takes its own output type as an input is never
    registered, whatever the registry holds. *)
Theorem Add_refuses_self_dependency (pm : ProductionMap) (r : Resolver) :
  OutputType r ∈ InputTypes r →
  (Add pm r).2 ≠ None
  ∧ (Validate r = None → (Add pm r).2 = Some ErrResolverConflict
                         ∨ (Add pm r).2 = Some ErrCircularDependencies).
Proof.
  intros Hself.
  assert (IsDAG (<[OutputType r := (pm !!! OutputType r) ++ [r]]> pm) = false) as Hcyc.
  { apply not_true_iff_false. rewrite IsDAG_walks. intros Hnone.
    set (p := MkPtr (OutputType r, length (pm !!! OutputType r)) r).
    apply (Hnone p), tc_once, walks_iff. split; [done|].
    apply elem_of_List. exists ((pm !!! OutputType r) ++ [r]).
    split; [apply lookup_insert_eq|]. simpl.
    by rewrite lookup_app_r, Nat.sub_diag by lia. }
  rewrite Add_unfold. destruct (Validate r); [done|].
  destruct (existsb _ _); [by split; [|left]|]. rewrite Hcyc. by split; [|right].
Qed.

Lemma Add_refuses_self_dependency_witness :
  (Add (Fixtures.axeRegistry 4) Fixtures.selfUser).2 ≠ None.
Proof.
  apply (Add_refuses_self_dependency (Fixtures.axeRegistry 4) Fixtures.selfUser).
  left.
Defined.

(** ** What registries built with Add keep *)

Lemma WellFormed_insert pm r :
  WellFormed pm → Validate r = None →
  WellFormed (<[OutputType r := (pm !!! OutputType r) ++ [r]]> pm).
Proof.
  intros Hwf Hval t rs. destruct (decide (t = OutputType r)) as [->|Hne].
  - rewrite lookup_insert_eq. intros ?. simplify_eq.
    split; [by destruct (pm !!! OutputType r)|].
    intros r' [Hr'|Hr'%list_elem_of_singleton]%elem_of_app; [|by subst].
    rewrite lookup_total_alt in Hr'.
    destruct (pm !! OutputType r) as [rs|] eqn:Hrs; [|by apply elem_of_nil in Hr'].
    by apply (Hwf _ _ Hrs).
  - rewrite lookup_insert_ne by done. apply Hwf.
Qed.

Lemma edge_edgeOf pm a b : edge pm a b ↔ edgeOf (deref <$> List pm) a b.
Proof.
  unfold edge, edgeOf. split.
  - intros (p & Hp & ? & ?). exists (deref p). split; [|done]. by apply list_elem_of_fmap_2.
  - intros (r & (p & -> & Hp)%list_elem_of_fmap & ? & ?). by exists p.
Qed.

Lemma tc_edgeOf_mono rs rs' a b :
  (∀ r, r ∈ rs → r ∈ rs') → tc (edgeOf rs) a b → tc (edgeOf rs') a b.
Proof.
  intros Hsub. induction 1 as [a b (r & ? & ? & ?)|a y b (r & ? & ? & ?) _ IH].
  - apply tc_once. exists r. auto.
  - eapply tc_l; [|done]. exists r. auto.
Qed.

Lemma AcyclicOf_subset rs rs' :
  (∀ r, r ∈ rs → r ∈ rs') → AcyclicOf rs' → AcyclicOf rs.
Proof. intros Hsub Hacyc t Ht. apply (Hacyc t). by eapply tc_edgeOf_mono. Qed.

Lemma tc_impl {A} (R R' : relation A) x y :
  (∀ a b, R a b → R' a b) → tc R x y → tc R' x y.
Proof.
  intros Himpl. induction 1 as [a b Hab|a c b Hac _ IH].
  - by apply tc_once, Himpl.
  - eapply tc_l; [by apply Himpl | done].
Qed.

Lemma Acyclic_AcyclicOf pm : Acyclic pm ↔ AcyclicOf (deref <$> List pm).
Proof.
  split; intros Hacyc t Ht; apply (Hacyc t); revert Ht; apply tc_impl;
    intros a b; apply edge_edgeOf.
Qed.

Lemma same_type_registered pm r :
  WellFormed pm →
  (∃ r', r' ∈ pm !!! OutputType r ∧ ftype r' = ftype r)
  ↔ ftype r ∈ ftype <$> (deref <$> List pm).
Proof.
  intros Hwf. rewrite list_elem_of_fmap. split.
  - intros (r' & Hr' & Hty). exists r'. split; [done|].
    apply elem_of_deref_List. rewrite lookup_total_alt in Hr'.
    destruct (pm !! OutputType r) as [rs|] eqn:Hrs; [|by apply elem_of_nil in Hr'].
    eauto.
  - intros (r' & Hty & (t & rs & Hrs & Hr')%elem_of_deref_List).
    exists r'. split; [|done].
    destruct (Hwf _ _ Hrs) as [_ Hall]. destruct (Hall r' Hr') as [_ <-].
    rewrite (OutputType_ftype r' r) by done.
    by rewrite lookup_total_alt, Hrs.
Qed.

(** On a well-formed registry, whether [Add] succeeds is a matter of the
    resolvers registered, not of how they are filed. *)
Lemma Add_None_registered pm r :
  WellFormed pm →
  (Add pm r).2 = None
  ↔ Validate r = None
    ∧ (ftype r ∉ ftype <$> (deref <$> List pm))
    ∧ AcyclicOf ((deref <$> List pm) ++ [r]).
Proof.
  intros Hwf. rewrite Add_None_iff, <-same_type_registered by done.
  split.
  - intros (Hval & Hnew & Hdag). split_and!; [done|naive_solver|].
    apply IsDAG_Acyclic, Acyclic_AcyclicOf in Hdag; [|by apply WellFormed_insert].
    eapply AcyclicOf_subset; [|done]. intros r'. by rewrite deref_List_insert.
  - intros (Hval & Hnew & Hacyc). split_and!; [done|naive_solver|].
    apply IsDAG_Acyclic, Acyclic_AcyclicOf; [by apply WellFormed_insert|].
    eapply AcyclicOf_subset; [|done]. intros r'. by rewrite deref_List_insert.
Qed.

Lemma Reachable_distinct_types pm :
  Reachable pm → NoDup (ftype <$> (deref <$> List pm)).
Proof.
  induction 1 as [|pm r Hreach IH]; [constructor|].
  pose proof (Reachable_WellFormed _ Hreach) as Hwf.
  destruct (decide ((Add pm r).2 = None)) as [Hok|Hfail].
  2:{ rewrite Add_failed_unchanged; [done| |done].
      intros t Ht. by destruct (Hwf _ _ Ht). }
  pose proof Hok as (_ & Hnew & _)%Add_None_registered; [|done].
  rewrite (Add_None _ _ Hok), deref_List_insert, fmap_app.
  apply NoDup_app. split_and!; [done| |apply NoDup_singleton].
  intros ty Hty ->%list_elem_of_singleton. done.
Qed.

(** X10.  Every registry built with [Add] from the empty one files each
    resolver under its output type, in a bucket that is not empty; holds
    only valid resolvers, of pairwise different function types; passes
    [IsDAG]; and has no cycle among its types, so that in particular no
    registered resolver takes its own output type as an input. *)
Theorem Reachable_invariants (pm : ProductionMap) :
  Reachable pm →
  (∀ t rs, pm !! t = Some rs →
     rs ≠ [] ∧ ∀ r, r ∈ rs → Validate r = None ∧ OutputType r = t)
  ∧ NoDup (ftype <$> (deref <$> List pm))
  ∧ IsDAG pm = true
  ∧ Acyclic pm
  ∧ ∀ p, p ∈ List pm → OutputType (deref p) ∉ InputTypes (deref p).
Proof.
  intros Hreach.
  pose proof (Reachable_WellFormed _ Hreach) as Hwf.
  pose proof (Reachable_IsDAG _ Hreach) as Hdag.
  pose proof (proj1 (IsDAG_Acyclic pm Hwf) Hdag) as Hacyc.
  split_and!; [done|by apply Reachable_distinct_types|done|done|].
  intros p Hp Hself. apply (Hacyc (OutputType (deref p))), tc_once. by exists p.
Qed.

Lemma Reachable_invariants_witness : IsDAG (Fixtures.axeRegistry 4) = true.
Proof.
  apply (Reachable_invariants (Fixtures.axeRegistry 4)).
  apply Reachable_AddAll, Reachable_empty.
Defined.

(** ** Registering several resolvers *)

Lemma AllAdded_registered rs pm :
  WellFormed pm → AcyclicOf (deref <$> List pm) →
  AllAdded pm rs
  ↔ Forall (λ r, Validate r = None) rs
    ∧ NoDup (ftype <$> rs)
    ∧ (∀ r, r ∈ rs → ftype r ∉ ftype <$> (deref <$> List pm))
    ∧ AcyclicOf ((deref <$> List pm) ++ rs).
Proof.
  revert pm. induction rs as [|r rs IH]; intros pm Hwf Hacyc.
  { simpl. rewrite (right_id_L [] (++)). split; [|done]. intros _.
    split_and!; [constructor|constructor| |done]. by intros r ?%elem_of_nil. }
  cbn [AllAdded]. rewrite Add_None_registered by done. split.
  - intros [(Hval & Hnew & Hacyc1) Hrest].
    assert ((Add pm r).2 = None) as Hok by (by apply Add_None_registered).
    assert (deref <$> List (Add pm r).1 ≡ₚ (deref <$> List pm) ++ [r]) as Hperm
      by (rewrite (Add_None _ _ Hok); apply deref_List_insert).
    apply IH in Hrest as (Hvals & Hnd & Hnews & Hacyc2).
    + split_and!.
      * by constructor.
      * rewrite fmap_cons. apply NoDup_cons. split; [|done].
        intros (r' & Hty & Hr')%list_elem_of_fmap. apply (Hnews r' Hr').
        rewrite Hperm, fmap_app, <-Hty. apply elem_of_app. right. left.
      * intros r' [->|Hr']%elem_of_cons; [done|]. intros Hin.
        apply (Hnews r' Hr'). rewrite Hperm, fmap_app. apply elem_of_app. by left.
      * eapply AcyclicOf_subset; [|exact Hacyc2]. intros r'.
        by rewrite Hperm, <-(assoc_L (++)).
    + rewrite (Add_None _ _ Hok). apply WellFormed_insert; [done|done].
    + eapply AcyclicOf_subset; [|done]. intros r'. by rewrite Hperm.
  - intros (Hvals & Hnd & Hnews & Hacyc2).
    apply Forall_cons in Hvals as [Hval Hvals].
    rewrite fmap_cons in Hnd. apply NoDup_cons in Hnd as [Hr Hnd].
    assert (AcyclicOf ((deref <$> List pm) ++ [r])) as Hacyc1.
    { eapply AcyclicOf_subset; [|done].
      intros r' [?|Hr'%list_elem_of_singleton]%elem_of_app;
        apply elem_of_app; [by left | subst r'; right; left]. }
    assert ((Add pm r).2 = None) as Hok.
    { apply Add_None_registered; [done|]. split_and!; [done| |done].
      apply Hnews. left. }
    assert (deref <$> List (Add pm r).1 ≡ₚ (deref <$> List pm) ++ [r]) as Hperm
      by (rewrite (Add_None _ _ Hok); apply deref_List_insert).
    split; [by apply Add_None_registered|]. apply IH.
    + rewrite (Add_None _ _ Hok). by apply WellFormed_insert.
    + eapply AcyclicOf_subset; [|done]. intros r'. by rewrite Hperm.
    + split_and!; [done..| |].
      * intros r' Hr'. rewrite Hperm, fmap_app.
        intros [Hin|Hin%list_elem_of_singleton]%elem_of_app.
        -- apply (Hnews r'); [by right | done].
        -- apply Hr. rewrite <-Hin. by apply list_elem_of_fmap_2.
      * eapply AcyclicOf_subset; [|exact Hacyc2]. intros r'.
        by rewrite Hperm, <-(assoc_L (++)).
Qed.

(** X11.  Registering a list of resolvers on a registry built with [Add]
    succeeds for all of them exactly when all are valid, the function
    types of the registered and the new resolvers are pairwise different,
    and together they have no cycle. *)
Theorem AllAdded_iff (pm : ProductionMap) (rs : list Resolver) :
  Reachable pm →
  AllAdded pm rs
  ↔ Forall (λ r, Validate r = None) rs
    ∧ NoDup (ftype <$> ((deref <$> List pm) ++ rs))
    ∧ AcyclicOf ((deref <$> List pm) ++ rs).
Proof.
  intros Hreach.
  pose proof (Reachable_WellFormed _ Hreach) as Hwf.
  pose proof (Reachable_distinct_types _ Hreach) as Hnd.
  assert (AcyclicOf (deref <$> List pm)) as Hacyc.
  { apply Acyclic_AcyclicOf, IsDAG_Acyclic; [done | by apply Reachable_IsDAG]. }
  rewrite AllAdded_registered by done. rewrite fmap_app, NoDup_app.
  split.
  - intros (? & ? & Hnew & ?). split_and!; try done.
    intros ty Hty (r & -> & Hr)%list_elem_of_fmap. by apply (Hnew r).
  - intros (? & (_ & Hnew & ?) & ?). split_and!; try done.
    intros r Hr Hin. apply (Hnew _ Hin). by apply list_elem_of_fmap_2.
Qed.

Lemma AllAdded_iff_witness :
  Forall (λ r, Validate r = None) Fixtures.axeResolvers
  ∧ NoDup (ftype <$> ((deref <$> List ∅) ++ Fixtures.axeResolvers))
  ∧ AcyclicOf ((deref <$> List ∅) ++ Fixtures.axeResolvers).
Proof.
  apply (proj1 (AllAdded_iff ∅ Fixtures.axeResolvers Reachable_empty)).
  by vm_compute.
Defined.

(** X12.  Whether a list of resolvers can be registered, and which
    resolvers the registry then holds, does not depend on the order in
    which they are registered. *)
Theorem AllAdded_any_order (pm : ProductionMap) (rs1 rs2 : list Resolver) :
  Reachable pm → rs1 ≡ₚ rs2 → AllAdded pm rs1 →
  AllAdded pm rs2
  ∧ deref <$> List (AddAll pm rs2) ≡ₚ deref <$> List (AddAll pm rs1).
Proof.
  intros Hreach Hperm H1.
  pose proof (Reachable_WellFormed _ Hreach) as Hwf.
  assert (AcyclicOf (deref <$> List pm)) as Hacyc.
  { apply Acyclic_AcyclicOf, IsDAG_Acyclic; [done | by apply Reachable_IsDAG]. }
  assert (AllAdded pm rs2) as H2.
  { apply AllAdded_registered in H1 as (Hvals & Hnd & Hnew & Hacyc1); [|done..].
    apply AllAdded_registered; [done..|]. split_and!.
    - by rewrite <-Hperm.
    - by rewrite <-Hperm.
    - intros r Hr. apply Hnew. by rewrite Hperm.
    - eapply AcyclicOf_subset; [|exact Hacyc1]. intros r. by rewrite Hperm. }
  split; [done|]. rewrite !AllAdded_List by done. by rewrite Hperm.
Qed.

Lemma AllAdded_any_order_witness :
  AllAdded ∅ [Fixtures.assembleAxe; Fixtures.pickupStick; Fixtures.chiselStone].
Proof.
  apply (AllAdded_any_order ∅
           [Fixtures.chiselStone; Fixtures.pickupStick; Fixtures.assembleAxe]
           [Fixtures.assembleAxe; Fixtures.pickupStick; Fixtures.chiselStone]).
  - apply Reachable_empty.
  - symmetry. apply (reverse_Permutation
      [Fixtures.chiselStone; Fixtures.pickupStick; Fixtures.assembleAxe]).
  - by vm_compute.
Defined.

(** ** What a possibility tree can derive *)

Lemma Derivable_mono rs inputs inputs' t :
  inputs ⊆ inputs' → Derivable rs inputs t → Derivable rs inputs' t.
Proof.
  intros Hsub. induction 1 as [t Ht|r Hr _ IH].
  - apply Derivable_input. by apply Hsub.
  - by apply Derivable_output.
Qed.

(** A type derivable with the help of an output that can itself be
    produced is derivable without that help. *)
Lemma Derivable_cut rs inputs r t :
  r ∈ rs → InputTypes r ⊆ inputs →
  Derivable rs (inputs ++ [OutputType r]) t → Derivable rs inputs t.
Proof.
  intros Hr Hins. induction 1 as [t Ht|r' Hr' _ IH].
  - apply elem_of_app in Ht as [Ht|Ht%list_elem_of_singleton].
    + by apply Derivable_input.
    + subst t. apply Derivable_output; [done|].
      intros a Ha. apply Derivable_input. by apply Hins.
  - by apply Derivable_output.
Qed.

(** A derivation of a type that is not yet available starts somewhere:
    some resolver can be applied to what is available. *)
Lemma Derivable_frontier rs inputs t :
  Derivable rs inputs t → t ∈ inputs ∨ ∃ r, r ∈ rs ∧ eligible inputs r.
Proof.
  induction 1 as [t Ht|r Hr _ IH]; [by left|].
  destruct (decide (OutputType r ∈ inputs)) as [|Hout]; [by left|]. right.
  destruct (MissingInputs r inputs) as [|a miss] eqn:Hmiss.
  - exists r. by split.
  - assert (a ∈ MissingInputs r inputs) as [Ha Hna]%elem_of_MissingInputs
      by (rewrite Hmiss; left).
    by destruct (IH a Ha).
Qed.

Lemma Builds_produces pm inputs steps target :
  Builds pm inputs steps →
  (∃ c n, c ∈ steps ∧ n ∈ nodes c ∧ produces n target = true)
  ↔ (target ∉ inputs) ∧ Derivable (deref <$> List pm) inputs target.
Proof.
  intros Hb. revert target.
  induction Hb as [inputs order steps Hperm Hsteps] using Builds_ind'.
  intros target. split.
  - intros (c & n & Hc & Hn & Hprod).
    apply list_elem_of_lookup in Hc as [k Hk].
    destruct (Forall2_lookup_r _ _ _ _ _ Hsteps Hk) as (p & Hp & sub & -> & Hsub & IH).
    apply list_elem_of_lookup_2, list_elem_of_filter in Hp as [[Hout Hfit] Hp].
    rewrite Hperm in Hp. apply MissingInputs_nil in Hfit.
    assert (deref p ∈ deref <$> List pm) as Hr by (by apply list_elem_of_fmap_2).
    apply nodes_inv in Hn as [->|(c' & Hc' & Hn)].
    + unfold produces in Hprod. cbn in Hprod.
      apply bool_decide_eq_true in Hprod. subst target.
      split; [done|]. apply Derivable_output; [done|].
      intros a Ha. apply Derivable_input. by apply Hfit.
    + cbn in Hc'. destruct (proj1 (IH target)) as [Hnot Hder]; [by eauto|].
      split.
      * intros Hin. apply Hnot, elem_of_app. by left.
      * by eapply Derivable_cut.
  - intros [Hnot Hder].
    destruct (Derivable_frontier _ _ _ Hder) as [?|(r & Hr & Hel)]; [done|].
    apply list_elem_of_fmap in Hr as (p & -> & Hp). rewrite <-Hperm in Hp.
    assert (p ∈ filter (λ p, eligible inputs (deref p)) order) as Hin
      by (by apply list_elem_of_filter).
    apply list_elem_of_lookup in Hin as [k Hk].
    destruct (Forall2_lookup_l _ _ _ _ _ Hsteps Hk) as (c & Hc & sub & -> & Hsub & IH).
    apply list_elem_of_lookup_2 in Hc.
    destruct (decide (OutputType (deref p) = target)) as [Heq|Hne].
    + exists (Node (Some p) inputs sub), (Node (Some p) inputs sub).
      split_and!; [done|apply nodes_self|].
      unfold produces. cbn. by apply bool_decide_eq_true.
    + destruct (proj2 (IH target)) as (c' & n & Hc' & Hn & Hprod).
      { split.
        - intros [?|?%list_elem_of_singleton]%elem_of_app; [done|congruence].
        - eapply Derivable_mono; [|done]. intros x ?. apply elem_of_app. by left. }
      exists (Node (Some p) inputs sub), n. split_and!; [done| |done].
      by apply (nodes_child (Node (Some p) inputs sub) c').
Qed.

(** X13.  On the tree built for [inputs], [PruneFor] succeeds exactly for
    the types that are not among [inputs] and that the registered
    resolvers can derive from [inputs]: the output type of a resolver all
    of whose input types are among [inputs] or derivable in turn. *)
Theorem PruneFor_succeeds_iff_derivable
    (pm : ProductionMap) (inputs : list rtype) (target : rtype)
    (root : PossibilityNode) :
  PossibilityTree pm inputs = Some root ∨ Built pm inputs root →
  (PruneFor root target).2 = None
  ↔ (target ∉ inputs) ∧ Derivable (deref <$> List pm) inputs target.
Proof.
  intros Hroot.
  assert (Built pm inputs root) as (steps & -> & Hb).
  { destruct Hroot as [Hroot|Hroot]; [by apply PossibilityTree_Built | done]. }
  rewrite PruneFor_nil_iff, <-(Builds_produces _ _ _ _ Hb). split.
  - intros (n & [->|(c & Hc & Hn)]%nodes_inv & Hprod); [done|]. eauto.
  - intros (c & n & Hc & Hn & Hprod). exists n. split; [|done].
    by apply (nodes_child (Node None [] steps) c).
Qed.

Lemma PruneFor_succeeds_iff_derivable_witness :
  (Fixtures.Axe ∉ [Fixtures.Boulder; Fixtures.Tree])
  ∧ Derivable (deref <$> List (Fixtures.axeRegistry 4))
      [Fixtures.Boulder; Fixtures.Tree] Fixtures.Axe.
Proof.
  destruct (PossibilityTree (Fixtures.axeRegistry 4) [Fixtures.Boulder; Fixtures.Tree])
    as [root|] eqn:Hroot; [|by vm_compute in Hroot].
  apply (proj1 (PruneFor_succeeds_iff_derivable (Fixtures.axeRegistry 4)
                  [Fixtures.Boulder; Fixtures.Tree] Fixtures.Axe root (or_introl Hroot))).
  vm_compute in Hroot. injection Hroot as <-. by vm_compute.
Defined.

(** ** Pruning twice, and what pruning keeps *)

Lemma produces_resolver pn pn' output :
  nodeResolver pn = nodeResolver pn' → produces pn output = produces pn' output.
Proof. unfold produces. by intros ->. Qed.

Lemma PruneFor_keeps pn output :
  nodeResolver (PruneFor pn output).1 = nodeResolver pn
  ∧ Inputs (PruneFor pn output).1 = Inputs pn.
Proof.
  destruct pn as [r i next]. rewrite PruneFor_unfold.
  destruct (produces _ _); [done|]. cbv zeta. by case_decide.
Qed.

Lemma filter_Forall_id {A} (P : A → Prop) `{!∀ x, Decision (P x)} (l : list A) :
  Forall P l → filter P l = l.
Proof.
  induction 1 as [|x l Hx _ IH]; [done|].
  by rewrite filter_cons, decide_True, IH by done.
Qed.

(** X14.  Pruning for the same type a second time changes nothing and
    returns what the first call returned. *)
Theorem PruneFor_idempotent (pn : PossibilityNode) (target : rtype) :
  PruneFor (PruneFor pn target).1 target = PruneFor pn target.
Proof.
  induction pn as [r i next IH] using PossibilityNode_ind'.
  rewrite (PruneFor_unfold r i next).
  destruct (produces (Node r i next) target) eqn:Hp.
  { cbn [fst]. rewrite PruneFor_unfold.
    by rewrite (produces_resolver (Node r i []) (Node r i next)), Hp. }
  cbv zeta.
  set (kept := filter (λ p, p.2 = None) ((λ c, PruneFor c target) <$> next)).
  assert (Forall (λ p, p.2 = None) kept) as Hkept.
  { apply Forall_forall. by intros p [? _]%list_elem_of_filter. }
  assert ((λ c, PruneFor c target) <$> kept.*1 = kept) as Hagain.
  { rewrite <-list_fmap_compose. rewrite <-(list_fmap_id kept) at 2.
    apply Forall_fmap_ext_1, Forall_forall.
    intros p [Hok (c & -> & Hc)%list_elem_of_fmap]%list_elem_of_filter.
    rewrite Forall_forall in IH. apply (IH c Hc). }
  case_decide as Hlen; cbn [fst].
  - rewrite PruneFor_unfold.
    rewrite (produces_resolver (Node r i []) (Node r i next)), Hp by done.
    cbv zeta. by rewrite decide_True by done.
  - rewrite PruneFor_unfold.
    rewrite (produces_resolver (Node r i (kept.*1)) (Node r i next)), Hp by done.
    cbv zeta. rewrite Hagain, (filter_Forall_id _ kept Hkept).
    by rewrite decide_False by done.
Qed.

Lemma sum_list_with_kept (output : rtype) (next : list PossibilityNode) :
  Forall (λ c, Count (PruneFor c output).1 ≤ Count c) next →
  sum_list_with Count (filter (λ p, p.2 = None) ((λ c, PruneFor c output) <$> next)).*1
  ≤ sum_list_with Count next.
Proof.
  induction 1 as [|c next Hc _ IH]; [done|].
  rewrite fmap_cons, filter_cons.
  case_decide; rewrite ?fmap_cons; cbn [sum_list_with fst]; lia.
Qed.

Lemma PruneFor_Count pn output : Count (PruneFor pn output).1 ≤ Count pn.
Proof.
  induction pn as [r i next IH] using PossibilityNode_ind'.
  rewrite PruneFor_unfold. destruct (produces _ _).
  { cbn [fst]. rewrite !Count_unfold. simpl. lia. }
  cbv zeta. case_decide; cbn [fst]; rewrite !Count_unfold.
  - simpl. lia.
  - pose proof (sum_list_with_kept output next IH). lia.
Qed.

Lemma PruneFor_nodes pn output n :
  n ∈ nodes (PruneFor pn output).1 →
  ∃ n0, n0 ∈ nodes pn ∧ n = (PruneFor n0 output).1.
Proof.
  induction pn as [r i next IH] using PossibilityNode_ind'.
  intros Hn.
  assert (n = (PruneFor (Node r i next) output).1
          ∨ ∃ c, c ∈ next ∧ n ∈ nodes (PruneFor c output).1) as [->|(c & Hc & Hin)].
  { revert Hn. rewrite PruneFor_unfold. destruct (produces _ _).
    { cbn. intros ->%list_elem_of_singleton. by left. }
    cbv zeta. case_decide; cbn [fst].
    { cbn. intros ->%list_elem_of_singleton. by left. }
    intros [->|(c' & Hc' & Hn)]%nodes_inv; [by left|]. right.
    cbn [NextSteps] in Hc'.
    apply list_elem_of_fmap in Hc' as (p & -> & Hp).
    apply list_elem_of_filter in Hp as [_ (c & -> & Hc)%list_elem_of_fmap].
    eauto. }
  - exists (Node r i next). split; [apply nodes_self | done].
  - rewrite Forall_forall in IH. destruct (IH c Hc Hin) as (n0 & Hn0 & ->).
    exists n0. split; [|done]. by apply (nodes_child (Node r i next) c).
Qed.

(** X15.  [PruneFor] only removes: the node keeps its resolver and its
    inputs, every node left in the tree is a node of the tree given, with
    the resolver and the inputs it had, and the count does not grow. *)
Theorem PruneFor_only_removes (pn : PossibilityNode) (target : rtype) :
  nodeResolver (PruneFor pn target).1 = nodeResolver pn
  ∧ Inputs (PruneFor pn target).1 = Inputs pn
  ∧ Count (PruneFor pn target).1 ≤ Count pn
  ∧ ∀ n, n ∈ nodes (PruneFor pn target).1 →
      ∃ n0, n0 ∈ nodes pn ∧ nodeResolver n = nodeResolver n0 ∧ Inputs n = Inputs n0
            ∧ sublist (nodeResolver <$> NextSteps n) (nodeResolver <$> NextSteps n0).
Proof.
  split_and!; [apply PruneFor_keeps..|apply PruneFor_Count|].
  intros n (n0 & Hn0 & ->)%PruneFor_nodes. exists n0.
  split_and!; [done|apply PruneFor_keeps..|].
  destruct n0 as [r i next]. rewrite PruneFor_unfold.
  destruct (produces _ _); [apply sublist_nil_l|]. cbv zeta.
  case_decide; cbn [fst NextSteps]; [apply sublist_nil_l|].
  clear. induction next as [|c next IH]; [done|].
  rewrite !fmap_cons, filter_cons. case_decide.
  - rewrite !fmap_cons. rewrite (proj1 (PruneFor_keeps c target)). by constructor.
  - by constructor.
Qed.

(** ** Count and Print *)

Lemma Count_nodes pn : Count pn = length (nodes pn).
Proof.
  induction pn as [r i next IH] using PossibilityNode_ind'.
  rewrite Count_unfold. cbn [nodes length]. f_equal.
  induction IH as [|c next Hc _ IHn]; [done|].
  rewrite bind_cons, length_app. cbn [sum_list_with]. lia.
Qed.

Lemma Count_pos pn : 0 < Count pn.
Proof. destruct pn. rewrite Count_unfold. lia. Qed.

Lemma depth_lt_Count pn : depth pn < Count pn.
Proof.
  induction pn as [r i next IH] using PossibilityNode_ind'.
  rewrite Count_unfold. apply Nat.lt_succ_r, depth_le.
  intros c Hc. rewrite Forall_forall in IH. specialize (IH c Hc).
  pose proof (sum_list_with_in c Count next Hc). lia.
Qed.

(** X16.  [Count] returns the number of nodes of the tree, the node it is
    called on included: it is 1 exactly on a node without next steps, and
    it exceeds the length of every chain of steps below the node. *)
Theorem Count_counts_nodes (pn : PossibilityNode) :
  Count pn = length (nodes pn)
  ∧ (Count pn = 1 ↔ NextSteps pn = [])
  ∧ depth pn < Count pn
  ∧ ∀ c, c ∈ NextSteps pn → Count c < Count pn.
Proof.
  split_and!; [apply Count_nodes| |apply depth_lt_Count|].
  - destruct pn as [r i [|c next]]; rewrite Count_unfold; cbn [NextSteps sum_list_with].
    + done.
    + pose proof (Count_pos c). split; [lia|done].
  - destruct pn as [r i next]. cbn [NextSteps]. intros c Hc. rewrite Count_unfold.
    pose proof (sum_list_with_in c Count next Hc). lia.
Qed.

Lemma Print_unfold r i next (d : Z) :
  Print (Node r i next) d =
    (from_option (λ p, [MkLogLine (printPrefix d) d (OutputType (deref p)) i]) [] r
       ++ (next ≫= λ c, (Print c (wrapInt (d + 1))).1),
     S (sum_list_with (λ c, (Print c (wrapInt (d + 1))).2) next)).
Proof.
  cbn [Print].
  assert (∀ acc : list logLine * nat,
            foldl (λ acc node, let sub := Print node (wrapInt (d + 1)) in
                               (acc.1 ++ sub.1, acc.2 + sub.2)) acc next
            = (acc.1 ++ (next ≫= λ c, (Print c (wrapInt (d + 1))).1),
               acc.2 + sum_list_with (λ c, (Print c (wrapInt (d + 1))).2) next)) as Hfold.
  { induction next as [|c next IH]; intros [ls n]; cbn [foldl].
    - cbn. by rewrite (right_id_L [] (++)), Nat.add_0_r.
    - rewrite IH. cbn [fst snd]. rewrite bind_cons. cbn [sum_list_with].
      f_equal; [by rewrite (assoc_L (++)) | lia]. }
  rewrite Hfold. by destruct r.
Qed.

Lemma wrapInt_id (z : Z) : (- 2 ^ 63 ≤ z < 2 ^ 63)%Z → wrapInt z = z.
Proof. intros Hz. unfold wrapInt. rewrite Z.mod_small; lia. Qed.

Lemma Print_Count pn (d : Z) : (Print pn d).2 = Count pn.
Proof.
  revert d. induction pn as [r i next IH] using PossibilityNode_ind'. intros d.
  rewrite Print_unfold, Count_unfold. cbn [snd]. f_equal.
  induction IH as [|c next Hc _ IHn]; [done|].
  cbn [sum_list_with]. f_equal; [apply Hc | done].
Qed.

(** As long as the depth stays an [int], the lines are those of the nodes
    in pre-order, each at its level. *)
Lemma Print_levels pn (d : Z) :
  (- 2 ^ 63 ≤ d)%Z → (d + Z.of_nat (depth pn) < 2 ^ 63)%Z →
  (Print pn d).1 = omap lineOf (levels d pn).
Proof.
  revert d. induction pn as [r i next IH] using PossibilityNode_ind'.
  intros d Hlo Hhi. rewrite Print_unfold. cbn [fst levels].
  assert (next ≫= (λ c, (Print c (wrapInt (d + 1))).1)
          = omap lineOf (next ≫= levels (d + 1)%Z)) as ->; [|by destruct r].
  assert (∀ c, c ∈ next → S (depth c) ≤ depth (Node r i next)) as Hdepth
    by (intros c; apply depth_child).
  revert Hdepth Hhi. generalize (depth (Node r i next)) as b. intros b Hb Hhi.
  induction IH as [|c next Hc _ IHn]; [done|].
  rewrite !bind_cons, omap_app.
  pose proof (Hb c ltac:(left)) as Hbc.
  rewrite IHn by (intros c' Hc'; apply Hb; by right).
  rewrite wrapInt_id by lia. rewrite Hc by lia. done.
Qed.

Lemma String_length_app (s1 s2 : string) :
  String.length (s1 +:+ s2) = String.length s1 + String.length s2.
Proof. induction s1 as [|a s1 IH]; [done|]. simpl. by rewrite IH. Qed.

Lemma printPrefix_length (d : Z) : String.length (printPrefix d) = 2 * Z.to_nat d.
Proof.
  unfold printPrefix.
  assert (∀ (l : list Z) s,
            String.length (foldl (λ p _, p +:+ "--") s l)
            = String.length s + 2 * length l) as ->.
  { induction l as [|x l IH]; intros s; cbn [foldl]; [simpl; lia|].
    rewrite IH, String_length_app. simpl. lia. }
  rewrite length_seqZ. simpl. lia.
Qed.

Lemma levels_ge pn (d lvl : Z) n : (lvl, n) ∈ levels d pn → (d ≤ lvl)%Z.
Proof.
  revert d. induction pn as [r i next IH] using PossibilityNode_ind'. intros d.
  cbn [levels]. intros [[= -> ->]|Hn]%elem_of_cons; [lia|].
  apply list_elem_of_bind in Hn as (c & Hn & Hc).
  rewrite Forall_forall in IH. specialize (IH c Hc _ Hn). lia.
Qed.

Lemma levels_le pn (d lvl : Z) n : (lvl, n) ∈ levels d pn → (lvl ≤ d + Z.of_nat (depth pn))%Z.
Proof.
  revert d. induction pn as [r i next IH] using PossibilityNode_ind'. intros d.
  cbn [levels]. intros [[= -> ->]|Hn]%elem_of_cons; [lia|].
  apply list_elem_of_bind in Hn as (c & Hn & Hc).
  rewrite Forall_forall in IH. specialize (IH c Hc _ Hn).
  pose proof (depth_child r i next c Hc). lia.
Qed.

(** X17.  [Print] returns what [Count] returns.  As long as the depths do
    not leave the range of an [int], it logs one line for each node that
    has a resolver and none for the others, parents before their next
    steps and the next steps in their order; the line of a node [k] steps
    below the one it is called on carries the depth [depth + k], a prefix
    of two dashes per unit of that depth, the output type of its resolver
    and its inputs. *)
Theorem Print_logs_preorder (pn : PossibilityNode) (d : Z) :
  (- 2 ^ 63 ≤ d)%Z → (d + Z.of_nat (depth pn) < 2 ^ 63)%Z →
  (Print pn d).2 = Count pn
  ∧ (Print pn d).1 = omap lineOf (levels d pn)
  ∧ ∀ l, l ∈ (Print pn d).1 →
      (d ≤ lineDepth l ≤ d + Z.of_nat (depth pn))%Z
      ∧ String.length (linePrefix l) = 2 * Z.to_nat (lineDepth l)
      ∧ ∃ n p, n ∈ nodes pn ∧ nodeResolver n = Some p
               ∧ lineType l = OutputType (deref p) ∧ lineInputs l = Inputs n.
Proof.
  intros Hlo Hhi. pose proof (Print_levels pn d Hlo Hhi) as Hlines.
  split_and!; [apply Print_Count|done|].
  intros l. rewrite Hlines. intros ([lvl n] & Hn & Hl)%list_elem_of_omap.
  unfold lineOf in Hl. cbn [fst snd] in Hl.
  destruct (nodeResolver n) as [p|] eqn:Hp; [|done]. cbn in Hl. simplify_eq. cbn.
  split_and!; [by eapply levels_ge | by eapply levels_le | apply printPrefix_length |].
  exists n, p. split_and!; [|done..].
  clear -Hn. revert d Hn.
  induction pn as [r i next IH] using PossibilityNode_ind'. intros d.
  cbn [levels]. intros [[= -> ->]|Hn]%elem_of_cons; [apply nodes_self|].
  apply list_elem_of_bind in Hn as (c & Hn & Hc).
  rewrite Forall_forall in IH. apply (nodes_child (Node r i next) c); [done|].
  by apply (IH c Hc (d + 1)%Z).
Qed.

Lemma Print_logs_preorder_witness :
  (Print (Node None [] [Node (Some (MkPtr (Fixtures.Stone, 0) Fixtures.chiselStone))
                          [Fixtures.Boulder] []]) 0).1
  = [MkLogLine "--" 1 Fixtures.Stone [Fixtures.Boulder]].
Proof.
  refine (proj1 (proj2 (Print_logs_preorder
    (Node None [] [Node (Some (MkPtr (Fixtures.Stone, 0) Fixtures.chiselStone))
                     [Fixtures.Boulder] []]) 0 _ _))).
  - lia.
  - simpl. lia.
Defined.

Lemma Builds_levels pm avail steps :
  Builds pm avail steps →
  ∀ (k lvl : Z) c n, c ∈ steps → (lvl, n) ∈ levels k c →
    ∃ p, p ∈ List pm ∧ nodeResolver n = Some p ∧ eligible (Inputs n) (deref p)
         ∧ length (Inputs n) = length avail + Z.to_nat (lvl - k).
Proof.
  induction 1 as [inputs order steps Hperm Hsteps] using Builds_ind'.
  intros k lvl c n Hc Hn.
  apply list_elem_of_lookup in Hc as [j Hj].
  destruct (Forall2_lookup_r _ _ _ _ _ Hsteps Hj) as (p & Hp & sub & -> & Hsub & IH).
  apply list_elem_of_lookup_2, list_elem_of_filter in Hp as [Hel Hp].
  rewrite Hperm in Hp. cbn [levels] in Hn.
  apply elem_of_cons in Hn as [[= -> ->]|Hn].
  - exists p. split_and!; [done..|]. cbn. rewrite Z.sub_diag. simpl. lia.
  - apply list_elem_of_bind in Hn as (c' & Hn & Hc').
    destruct (IH (k + 1)%Z lvl c' n Hc' Hn) as (q & Hq & Hres & Helig & Hlen).
    exists q. split_and!; [done..|].
    pose proof (levels_ge _ _ _ _ Hn). rewrite Hlen, length_app. simpl. lia.
Qed.

Lemma length_omap_is_Some {A B} (f : A → option B) (l : list A) :
  Forall (λ x, is_Some (f x)) l → length (omap f l) = length l.
Proof.
  induction 1 as [|x l [y Hy] _ IH]; [done|]. cbn. rewrite Hy. cbn. by rewrite IH.
Qed.

Lemma length_levels pn (d : Z) : length (levels d pn) = Count pn.
Proof.
  revert d. induction pn as [r i next IH] using PossibilityNode_ind'. intros d.
  rewrite Count_unfold. cbn [levels length]. f_equal.
  induction IH as [|c next Hc _ IHn]; [done|].
  rewrite bind_cons, length_app, Hc. cbn [sum_list_with]. lia.
Qed.

(** X18.  [Print(0)] on a tree the builder made, for a registry of fewer
    than [2^63] resolvers, logs a line for every node but the root.  A
    line at depth [k] lists the [inputs] the tree was built for and
    [k - 1] types more, and names the output type of a registered resolver
    that is not among the types listed and all of whose input types are. *)
Theorem Print_of_built_tree (pm : ProductionMap) (inputs : list rtype)
    (root : PossibilityNode) :
  (Z.of_nat (length (List pm)) < 2 ^ 63)%Z →
  PossibilityTree pm inputs = Some root ∨ Built pm inputs root →
  length (Print root 0).1 + 1 = (Print root 0).2
  ∧ ∀ l, l ∈ (Print root 0).1 →
      (1 ≤ lineDepth l)%Z
      ∧ length (lineInputs l) + 1 = length inputs + Z.to_nat (lineDepth l)
      ∧ (lineType l ∉ lineInputs l)
      ∧ ∃ p, p ∈ List pm ∧ lineType l = OutputType (deref p)
             ∧ InputTypes (deref p) ⊆ lineInputs l.
Proof.
  intros Hsize Hroot.
  assert (Built pm inputs root) as (steps & -> & Hb).
  { destruct Hroot as [Hroot|Hroot]; [by apply PossibilityTree_Built | done]. }
  pose proof (Builds_depth_le pm inputs steps None [] Hb) as Hdepth.
  pose proof (unproduced_le_length pm inputs) as Hle.
  rewrite (Print_levels (Node None [] steps) 0), Print_Count by lia.
  cbn [levels].
  assert (omap lineOf ((0%Z, Node None [] steps) :: (steps ≫= levels (0 + 1)%Z))
          = omap lineOf (steps ≫= levels 1%Z)) as -> by done.
  split.
  - rewrite length_omap_is_Some.
    + pose proof (length_levels (Node None [] steps) 0) as Hlen.
      cbn [levels length] in Hlen. change (0 + 1)%Z with 1%Z in Hlen. lia.
    + apply Forall_forall. intros [lvl n] (c & Hn & Hc)%list_elem_of_bind.
      destruct (Builds_levels _ _ _ Hb 1%Z lvl c n Hc Hn) as (p & _ & Hres & _).
      unfold lineOf. cbn [fst snd]. rewrite Hres. by eexists.
  - intros l ([lvl n] & (c & Hn & Hc)%list_elem_of_bind & Hl)%list_elem_of_omap.
    destruct (Builds_levels _ _ _ Hb 1%Z lvl c n Hc Hn)
      as (p & Hp & Hres & [Hout Hfit] & Hlen).
    pose proof (levels_ge _ _ _ _ Hn) as Hge.
    unfold lineOf in Hl. cbn [fst snd] in Hl. rewrite Hres in Hl. cbn in Hl.
    simplify_eq. cbn. split_and!; [done| lia | done |].
    exists p. split_and!; [done..|]. by apply MissingInputs_nil.
Qed.

Lemma Print_of_built_tree_witness :
  ∃ root,
    PossibilityTree (Fixtures.axeRegistry 4) [Fixtures.Boulder; Fixtures.Tree] = Some root
    ∧ length (Print root 0).1 + 1 = (Print root 0).2.
Proof.
  destruct (PossibilityTree_total (Fixtures.axeRegistry 4) [Fixtures.Boulder; Fixtures.Tree])
    as [root Hroot].
  exists root. split; [done|].
  apply (Print_of_built_tree (Fixtures.axeRegistry 4) [Fixtures.Boulder; Fixtures.Tree] root).
  - vm_compute. reflexivity.
  - by left.
Defined.

(** ** List *)

Lemma NoDup_List pm : NoDup (List pm).
Proof.
  unfold List. apply NoDup_bind.
  - intros [t rs] [t' rs'] p Ht%elem_of_map_to_list Ht'%elem_of_map_to_list.
    intros (j & r & -> & _)%elem_of_lookup_imap (j' & r' & [= -> _ _] & _)%elem_of_lookup_imap.
    by simplify_eq.
  - intros [t rs] _. apply NoDup_alt. intros j j' p.
    rewrite !list_lookup_imap.
    destruct (rs !! j), (rs !! j'); simpl; intros Hj Hj'; by simplify_eq.
  - apply NoDup_map_to_list.
Qed.

(** X19.  [List] returns one pointer for each resolver of each bucket,
    [&pm[t][j]], and none twice: as many as the buckets hold resolvers,
    and two pointers to the same place are the same pointer. *)
Theorem List_pointers (pm : ProductionMap) :
  (∀ p, p ∈ List pm
        ↔ ∃ rs, pm !! (addr p).1 = Some rs ∧ rs !! (addr p).2 = Some (deref p))
  ∧ NoDup (addr <$> List pm)
  ∧ length (List pm) = sum_list_with (λ trs, length trs.2) (map_to_list pm)
  ∧ ∀ r, r ∈ deref <$> List pm ↔ ∃ t rs, pm !! t = Some rs ∧ r ∈ rs.
Proof.
  split_and!.
  - apply elem_of_List.
  - apply NoDup_fmap_2_strong; [apply List_addr_inj | apply NoDup_List].
  - unfold List. induction (map_to_list pm) as [|[t rs] l IH]; [done|].
    rewrite bind_cons, length_app, length_imap, IH. done.
  - apply elem_of_deref_List.
Qed.

(** ** The builder on a root that has next steps *)




(** ** NewResolver *)

Lemma IsDAG_self_dependency pm r :
  OutputType r ∈ InputTypes r →
  IsDAG (<[OutputType r := (pm !!! OutputType r) ++ [r]]> pm) = false.
Proof.
  intros Hself. apply not_true_iff_false. rewrite IsDAG_walks. intros Hnone.
  set (p := MkPtr (OutputType r, length (pm !!! OutputType r)) r).
  apply (Hnone p), tc_once, walks_iff. split; [done|].
  apply elem_of_List. exists ((pm !!! OutputType r) ++ [r]).
  split; [apply lookup_insert_eq|]. simpl.
  by rewrite lookup_app_r, Nat.sub_diag by lia.
Qed.

(** X21.  What [NewResolver] returns is the function it was given, passes
    [Validate], is never the cause of a panic in [Resolve], and is
    accepted by [Add] into an empty registry unless it takes its own
    output type as an input. *)
Theorem NewResolver_usable (f r : Resolver) :
  NewResolver f = inr r →
  r = f
  ∧ Validate r = None
  ∧ (∀ inputs, Resolve r inputs ≠ Panicked)
  ∧ ((Add ∅ r).2 = None ↔ OutputType r ∉ InputTypes r).
Proof.
  unfold NewResolver. cbv zeta. destruct (Validate f) as [e|] eqn:Hval; [done|].
  intros [= <-]. split_and!; [done..| |].
  - intros inputs. unfold Validate in Hval. unfold Resolve.
    destruct (ftype f) as [t|ins outs]; [done|].
    repeat (case_decide || case_match); done.
  - rewrite Add_None_iff, lookup_total_empty. split.
    + intros (_ & _ & Hdag) Hself.
      pose proof (IsDAG_self_dependency ∅ f Hself) as Hcyc.
      rewrite lookup_total_empty in Hcyc. congruence.
    + intros Hself. split_and!; [done|by intros r' ?%elem_of_nil|].
      rewrite insert_empty. apply IsDAG_single_bucket.
      by intros r' ->%list_elem_of_singleton.
Qed.

Lemma NewResolver_usable_witness : (Add ∅ Fixtures.assembleAxe).2 = None.
Proof.
  apply (proj2 (proj2 (proj2 (proj2 (NewResolver_usable Fixtures.assembleAxe
                  Fixtures.assembleAxe eq_refl))))).
  apply (bool_decide_unpack _). vm_compute. exact I.
Defined.
